(** * TEOTIL2 reporting notebooks: merging old and new results, and the
      export of the report tables to a workbook.

    The development embeds the two notebooks of [code/]:

    - [merge_old_new_results.ipynb]: for every entry of [fname_dict] the
      legacy table is read, cut to the years [old_st .. old_end], two of
      its columns are renamed, the current table is read, both are
      concatenated, rounded, converted to integers and written out;
    - [tables_to_excel.ipynb]: for every region and parameter one table is
      read and written as a sheet of one workbook.

    Both notebooks are straight-line pandas code.  The embedding keeps the
    calls of the notebooks one to one ([read_csv], [query], [rename],
    [concat], [round], [astype], [to_csv], [to_excel]) and gives each the
    meaning it has on the data these notebooks handle:

    - a table is a header (the column labels, in file order) and rows of
      cells aligned with the header;
    - a cell is an integer (an [int64] value), a finite real (the rational
      a [float64] value denotes) or missing ([NaN]); rounding is exact, the
      conversion of a float to an integer is the cast to [int64], which
      gives the least [int64] for a value outside the range; an integer in
      a column that holds floats in the other table stays as it is, as it
      does in pandas below 2^53 in magnitude;
    - the columns of a table are numeric, as [read_csv] makes them for a
      file with at least one record; a file with nothing but a header gives
      columns of another kind, which [round] passes over: the statements on
      the numbers and on the class of the conversion error are made for
      files with rows;
    - the labels of a table are distinct, as [read_csv] makes them; the
      rename can make two labels equal, and what pandas does with repeated
      labels is not part of the model: the statements on the merge are made
      for tables whose labels are distinct after the rename;
    - a directory tree is a finite map from paths to tables; the parsing and
      printing of CSV text is not part of the model;
    - a workbook is the list of its sheets, in their order; a sheet is a
      title and a grid of cells;
    - an exception is an error value, and the state of the file system or of
      the writer at the moment it is raised is kept. *)

From Stdlib Require Import ZArith QArith Qabs Ascii Lia.
From stdpp Require Import base list sorting strings gmap pretty.

Local Open Scope Z_scope.

(** ** Exceptions *)

Inductive error :=
  | FileNotFoundError (path : string)
  | UndefinedVariableError (name : string)
  | IntCastingNaNError
  | ValueError
  | IndexError.

Inductive result (A : Type) :=
  | Ok (a : A)
  | Err (e : error).
Arguments Ok {A} a.
Arguments Err {A} e.

(** [x ← r; k] runs [k] on the value of [r], and passes an exception on. *)
Global Instance result_ret : MRet result := λ A a, Ok a.
Global Instance result_bind : MBind result := λ A B f r,
  match r with
  | Ok a => f a
  | Err e => Err e
  end.

Definition is_ok {A} (r : result A) : bool :=
  match r with Ok _ => true | Err _ => false end.

(** ** Cells and tables *)

Inductive cell :=
  | Int (z : Z)
  | Float (q : Q)
  | NaN.

Global Instance Q_eq_dec : EqDecision Q.
Proof. solve_decision. Defined.

Global Instance cell_eq_dec : EqDecision cell.
Proof. solve_decision. Defined.

Record DataFrame := {
  columns : list string;
  values : list (list cell)
}.

(** [Index.get_loc]: the position of the first column with this label. *)
Fixpoint get_loc (label : string) (cols : list string) : option nat :=
  match cols with
  | [] => None
  | c :: cs => if decide (c = label) then Some 0%nat else S <$> get_loc label cs
  end.

(** The cell of a row at a position; a row shorter than the header reads as
    missing there. *)
Definition iloc (row : list cell) (i : nat) : cell := default NaN (row !! i).

(** The cell of a row under a label of the header [cols]. *)
Definition at_label (cols : list string) (row : list cell) (label : string) : cell :=
  match get_loc label cols with
  | Some i => iloc row i
  | None => NaN
  end.

(** A table as [read_csv] returns it: distinct labels, rectangular rows. *)
Definition well_formed (df : DataFrame) : Prop :=
  NoDup (columns df) ∧ Forall (λ row, length row = length (columns df)) (values df).

(** ** The file system *)

(** [os.path.join] of two components (posixpath). *)
Definition starts_with_slash (s : string) : bool :=
  match s with
  | String c _ => bool_decide (c = "/"%char)
  | EmptyString => false
  end.

Fixpoint ends_with_slash (s : string) : bool :=
  match s with
  | EmptyString => false
  | String c EmptyString => bool_decide (c = "/"%char)
  | String _ s' => ends_with_slash s'
  end.

Definition path_join (a b : string) : string :=
  if starts_with_slash b then b
  else if bool_decide (a = "") || ends_with_slash a then a +:+ b
  else a +:+ "/" +:+ b.

Definition read_csv (fs : gmap string DataFrame) (path : string) : result DataFrame :=
  match fs !! path with
  | Some df => Ok df
  | None => Err (FileNotFoundError path)
  end.

(** [df.to_csv(path, index=False)]: header and rows, no index column; an
    existing file is replaced. *)
Definition to_csv (path : string) (df : DataFrame) (fs : gmap string DataFrame)
  : gmap string DataFrame :=
  <[path := df]> fs.

(** ** The steps of one merge *)

(** [lo <= y <= hi] on a cell of the year column; a comparison with a missing
    value is false. *)
Definition between (lo hi : Z) (y : cell) : bool :=
  match y with
  | Int z => (lo <=? z) && (z <=? hi)
  | Float q => Qle_bool (inject_Z lo) q && Qle_bool q (inject_Z hi)
  | NaN => false
  end.

(** [df.query("@lo <= label <= @hi")]: the rows whose cell under [label]
    lies between the bounds, in their order; a label that is no column is an
    undefined name of the expression. *)
Definition query (lo hi : Z) (label : string) (df : DataFrame) : result DataFrame :=
  match get_loc label (columns df) with
  | None => Err (UndefinedVariableError label)
  | Some i =>
      Ok {| columns := columns df;
            values := List.filter (λ row, between lo hi (iloc row i)) (values df) |}
  end.

(** [df.rename(mapper, axis="columns")]: a label that is a key of the mapper
    is replaced by its value, any other label stays. *)
Definition rename_label (mapper : gmap string string) (c : string) : string :=
  default c (mapper !! c).

Definition rename (mapper : gmap string string) (df : DataFrame) : DataFrame :=
  {| columns := rename_label mapper <$> columns df; values := values df |}.

(** [pd.concat([a, b], axis="rows")] (outer join, no sorting) of two tables
    with distinct labels: the columns are those of [a] followed by the
    columns of [b] that [a] lacks; every row is laid out on these columns by
    label, a cell whose label the row's table lacks is missing; the rows of
    [a] come first. *)
Definition union_index (a b : list string) : list string :=
  a ++ List.filter (λ c, bool_decide (c ∉ a)) b.

Definition reindex_row (src dst : list string) (row : list cell) : list cell :=
  at_label src row <$> dst.

Definition reindex (dst : list string) (df : DataFrame) : list (list cell) :=
  reindex_row (columns df) dst <$> values df.

Definition concat (a b : DataFrame) : DataFrame :=
  let cols := union_index (columns a) (columns b) in
  {| columns := cols; values := reindex cols a ++ reindex cols b |}.

(** [round(0)] on a float of a numeric column: the nearest integer, a tie
    goes to the even one. *)
Definition rint (q : Q) : Z :=
  let d := Z.pos (Qden q) in
  let f := Qnum q / d in
  let r := Qnum q mod d in
  match 2 * r ?= d with
  | Lt => f
  | Gt => f + 1
  | Eq => if Z.even f then f else f + 1
  end.

Definition round_cell (c : cell) : cell :=
  match c with
  | Float q => Float (inject_Z (rint q))
  | Int z => Int z
  | NaN => NaN
  end.

Definition round0 (df : DataFrame) : DataFrame :=
  {| columns := columns df; values := (λ row : list cell, round_cell <$> row) <$> values df |}.

(** The range of [int64]. *)
Definition int64_min : Z := -9223372036854775808.
Definition int64_max : Z := 9223372036854775807.

(** The cast of a float with the whole value [z] to [int64]: a value outside
    the range comes out as the least [int64]. *)
Definition to_int64 (z : Z) : Z :=
  if (int64_min <=? z) && (z <=? int64_max) then z else int64_min.

(** [astype(int)]: a float is cut towards zero and cast to [int64], a missing
    value cannot be converted. *)
Definition astype_int_cell (c : cell) : result cell :=
  match c with
  | Int z => Ok (Int z)
  | Float q => Ok (Int (to_int64 (Z.quot (Qnum q) (Z.pos (Qden q)))))
  | NaN => Err IntCastingNaNError
  end.

Fixpoint traverse {A B} (f : A → result B) (l : list A) : result (list B) :=
  match l with
  | [] => Ok []
  | x :: xs => y ← f x; ys ← traverse f xs; Ok (y :: ys)
  end.

Definition astype_int (df : DataFrame) : result DataFrame :=
  rows ← traverse (traverse astype_int_cell) (values df);
  Ok {| columns := columns df; values := rows |}.

(** ** The notebook [merge_old_new_results] *)

Definition fname_dict : list (string * string) :=
  [ ("Norges kystområder_p.csv", "Hele_kysten_p.csv");
    ("Norges kystområder_n.csv", "Hele_kysten_n.csv");
    ("Sverige – Strømtangen fyr_p.csv", "Sverige_Strømtangen_p.csv");
    ("Sverige – Strømtangen fyr_n.csv", "Sverige_Strømtangen_n.csv");
    ("Indre Oslofjord_p.csv", "Indre_Oslofjord_p.csv");
    ("Indre Oslofjord_n.csv", "Indre_Oslofjord_n.csv");
    ("Svenskegrensa – Lindesnes_p.csv", "Sverige_Lindesnes_p.csv");
    ("Svenskegrensa – Lindesnes_n.csv", "Sverige_Lindesnes_n.csv");
    ("Lindesnes – Stad_p.csv", "Lindesnes_stad_p.csv");
    ("Lindesnes – Stad_n.csv", "Lindesnes_stad_n.csv");
    ("Stad – Russland_p.csv", "Stad_Russland_p.csv");
    ("Stad – Russland_n.csv", "Stad_Russland_n.csv");
    ("Glomma_p.csv", "Glomma_p.csv");
    ("Glomma_n.csv", "Glomma_n.csv");
    ("Vest-Viken_p.csv", "Vest-Viken_p.csv");
    ("Vest-Viken_n.csv", "Vest-Viken_n.csv");
    ("Agder_p.csv", "Agder_p.csv");
    ("Agder_n.csv", "Agder_n.csv");
    ("Rogaland_p.csv", "Rogaland_p.csv");
    ("Rogaland_n.csv", "Rogaland_n.csv");
    ("Hordaland_p.csv", "Hordaland_p.csv");
    ("Hordaland_n.csv", "Hordaland_n.csv");
    ("Sogn og Fjordane_p.csv", "Sogn_og_Fjordane_p.csv");
    ("Sogn og Fjordane_n.csv", "Sogn_og_Fjordane_n.csv");
    ("Møre og Romsdal_p.csv", "Møre_og_Romsdal_p.csv");
    ("Møre og Romsdal_n.csv", "Møre_og_Romsdal_n.csv");
    ("Trøndelag_p.csv", "Trøndelag_p.csv");
    ("Trøndelag_n.csv", "Trøndelag_n.csv");
    ("Nordland_p.csv", "Nordland_p.csv");
    ("Nordland_n.csv", "Nordland_n.csv");
    ("Troms_p.csv", "Troms_p.csv");
    ("Troms_n.csv", "Troms_n.csv");
    ("Finnmark_p.csv", "Finnmark_p.csv");
    ("Finnmark_n.csv", "Finnmark_n.csv");
    ("Nordsjøen_p.csv", "Nordsjøen_p.csv");
    ("Nordsjøen_n.csv", "Nordsjøen_n.csv");
    ("Norskehavet_p.csv", "Norskehav_p.csv");
    ("Norskehavet_n.csv", "Norskehav_n.csv");
    ("Barentshavet_p.csv", "Barentshavet_p.csv");
    ("Barentshavet_n.csv", "Barentshavet_n.csv") ].

Definition old_st : Z := 1990.
Definition old_end : Z := 2017.

Definition old_fold : string := "../report_2020/jose_data".
Definition new_fold : string := "../report_2020/data".
Definition merge_fold : string := "../report_2020/jose_data_updated_2018-20".

Definition year_label : string := "År".

Definition legacy_names : gmap string string :=
  {[ "Befolkning" := "Avløp"; "Bakgrun" := "Bakgrunn" ]}.

(** The table part of the loop body: window, rename, concatenate, round,
    convert.  [lo] and [hi] are the notebook's [old_st] and [old_end]. *)
Definition window (lo hi : Z) (old_df : DataFrame) : result DataFrame :=
  query lo hi year_label old_df.

Definition normalize (df : DataFrame) : result DataFrame :=
  astype_int (round0 df).

Definition merge_frames (old_df new_df : DataFrame) : result DataFrame :=
  normalize (concat old_df new_df).

(** The loop body, on the file system.  The folders and the window are
    arguments; the notebook fixes them below. *)
Section Reconciler.
Variables (lo hi : Z) (old_dir new_dir out_dir : string).

Definition merge_pair (fs : gmap string DataFrame) (entry : string * string)
  : result (gmap string DataFrame) :=
  let '(new_fname, old_fname) := entry in
  let new_fpath := path_join new_dir new_fname in
  let old_fpath := path_join old_dir old_fname in
  let out_fpath := path_join out_dir new_fname in
  old_df ← read_csv fs old_fpath;
  old_df ← window lo hi old_df;
  let old_df := rename legacy_names old_df in
  new_df ← read_csv fs new_fpath;
  merge_df ← merge_frames old_df new_df;
  Ok (to_csv out_fpath merge_df fs).

(** The [for] loop over the items of the dictionary: the first exception
    ends the run, with the files written so far in place. *)
Fixpoint merge_all (entries : list (string * string)) (fs : gmap string DataFrame)
  : gmap string DataFrame * option error :=
  match entries with
  | [] => (fs, None)
  | entry :: rest =>
      match merge_pair fs entry with
      | Ok fs' => merge_all rest fs'
      | Err e => (fs, Some e)
      end
  end.
End Reconciler.

Definition merge_old_new_results (fs : gmap string DataFrame)
  : gmap string DataFrame * option error :=
  merge_all old_st old_end old_fold new_fold merge_fold fname_dict fs.

(** ** The notebook [tables_to_excel] *)

(** [str.capitalize] on ASCII text: the first character in upper case, the
    others in lower case; bytes outside ASCII are left as they are. *)
Definition upper (c : ascii) : ascii :=
  let n := nat_of_ascii c in
  if (97 <=? n)%nat && (n <=? 122)%nat then ascii_of_nat (n - 32) else c.

Definition lower (c : ascii) : ascii :=
  let n := nat_of_ascii c in
  if (65 <=? n)%nat && (n <=? 90)%nat then ascii_of_nat (n + 32) else c.

Fixpoint lower_string (s : string) : string :=
  match s with
  | EmptyString => EmptyString
  | String c s' => String (lower c) (lower_string s')
  end.

Definition capitalize (s : string) : string :=
  match s with
  | EmptyString => EmptyString
  | String c s' => String (upper c) (lower_string s')
  end.

(** A sheet is a title and a grid of written cells. *)
Inductive xl_value :=
  | XlText (s : string)
  | XlNumber (c : cell).

Record worksheet := {
  title : string;
  grid : list (list xl_value)
}.

(** The cells [to_excel] writes for a table: the header row, then one row per
    table row; with [index] a leading column holds the row labels, which for
    a table fresh from [read_csv] are 0, 1, 2, ... *)
Definition frame_cells (index : bool) (df : DataFrame) : list (list xl_value) :=
  let header := XlText <$> columns df in
  let body := (λ row : list cell, XlNumber <$> row) <$> values df in
  if index
  then (XlText "" :: header)
         :: imap (λ k row, XlNumber (Int (Z.of_nat k)) :: row) body
  else header :: body.

(** Writing cells onto a sheet from its top left corner: a written cell
    replaces the one at its place, the other cells of the sheet stay. *)
Fixpoint overlay {A} (new old : list A) : list A :=
  match new, old with
  | [], _ => old
  | _, [] => new
  | x :: new', _ :: old' => x :: overlay new' old'
  end.

Fixpoint overlay_grid {A} (new old : list (list A)) : list (list A) :=
  match new, old with
  | [], _ => old
  | _, [] => new
  | r :: new', r' :: old' => overlay r r' :: overlay_grid new' old'
  end.

(** The characters of a string. *)
Fixpoint chars (s : string) : list ascii :=
  match s with
  | EmptyString => []
  | String c s' => c :: chars s'
  end.

(** The engine of the writer (openpyxl) refuses a sheet title that is empty
    or holds one of the characters \ * ? : / [ ]. *)
Definition invalid_title_chars : list ascii :=
  [ascii_of_nat 92; "*"; "?"; ":"; "/"; "["; "]"]%char.

Definition title_ok (s : string) : bool :=
  negb (bool_decide (s = ""))
  && forallb (λ c, negb (bool_decide (c ∈ invalid_title_chars))) (chars s).

(** The title every new sheet of the engine starts with. *)
Definition default_title : string := "Sheet".

(** Titles that are equal up to the case of their letters, for titles of
    ASCII letters. *)
Definition same_title_ascii (a b : string) : bool :=
  bool_decide (lower_string a = lower_string b).

Section Workbook.
(** Two things the engine does with titles are arguments of the model:
    [same_title a b], whether two titles are equal up to the case of their
    letters ([a.lower() == b.lower()]), and [next_title taken value], the
    title the engine makes up for a sheet whose title [value] is equal up to
    case to one of the titles [taken] (the title with a number after it). *)
Variable same_title : string → string → bool.
Variable next_title : list string → string → string.

(** [avoid_duplicate_name(taken, value)]. *)
Definition unused_title (taken : list string) (value : string) : string :=
  if existsb (same_title value) taken then next_title taken value else value.

(** [wks = book.create_sheet(); wks.title = name], then the cells: the new
    sheet stands after the others, first under the default title; a title
    the engine refuses raises ValueError and leaves that sheet behind, empty;
    a title equal up to case to the title of another sheet of the book is
    replaced by a made-up one. *)
Definition create_sheet (writer : list worksheet) (name : string)
    (cells : list (list xl_value)) : list worksheet * option error :=
  let temp := unused_title (title <$> writer) default_title in
  if title_ok name
  then
    let new_title :=
      if decide (name = temp) then name
      else unused_title ((title <$> writer) ++ [temp]) name in
    (writer ++ [ {| title := new_title; grid := cells |} ], None)
  else (writer ++ [ {| title := temp; grid := [] |} ], Some ValueError).

(** Writing onto the sheet the writer has under a title. *)
Fixpoint write_cells (writer : list worksheet) (name : string)
    (cells : list (list xl_value)) : list worksheet :=
  match writer with
  | [] => []
  | ws :: rest =>
      if decide (title ws = name)
      then {| title := name; grid := overlay_grid cells (grid ws) |} :: rest
      else ws :: write_cells rest name cells
  end.

(** [df.to_excel(writer, sheet_name=name, index=index)] with a writer opened
    for writing: a title the writer has a sheet for is written onto that
    sheet; any other title gets a new sheet.  The result is the sheets of the
    writer afterwards and the exception raised, if one is. *)
Definition to_excel (writer : list worksheet) (name : string) (index : bool)
    (df : DataFrame) : list worksheet * option error :=
  if decide (name ∈ title <$> writer)
  then (write_cells writer name (frame_cells index df), None)
  else create_sheet writer name (frame_cells index df).
End Workbook.

Definition year : Z := 2022.

Definition regions : list string :=
  [ "Norges kystområder";
    "Sverige – Strømtangen fyr";
    "Indre Oslofjord";
    "Svenskegrensa – Lindesnes";
    "Lindesnes – Stad";
    "Stad – Russland";
    "Glomma";
    "Vest-Viken";
    "Agder";
    "Rogaland";
    "Hordaland";
    "Sogn og Fjordane";
    "Møre og Romsdal";
    "Trøndelag";
    "Nordland";
    "Troms";
    "Finnmark";
    "Nordsjøen";
    "Norskehavet";
    "Barentshavet" ].

Definition pars : list string := ["p"; "n"].

(** The workbook file the writer saves when its block ends. *)
Definition xl_path : string :=
  "../report_" +:+ pretty year +:+ "/report_" +:+ pretty year +:+ "_data_tables.xlsx".

Definition data_fold : string := "../report_" +:+ pretty year +:+ "/data".

Definition csv_name (region par : string) : string :=
  region +:+ "_" +:+ par +:+ ".csv".

Definition sheet_name (region par : string) : string :=
  region +:+ " (" +:+ capitalize par +:+ ")".

(** A loop whose body may raise: the first exception ends it, with the
    state the body has left. *)
Fixpoint for_each {S A} (body : S → A → S * option error) (l : list A) (s : S)
  : S * option error :=
  match l with
  | [] => (s, None)
  | x :: xs =>
      match body s x with
      | (s', None) => for_each body xs s'
      | stopped => stopped
      end
  end.

(** The end of the [with] block: the writer saves its sheets as the
    workbook, also when the block is left by an exception, which is then
    passed on; a writer without a sheet cannot save: IndexError, and no
    workbook comes out. *)
Definition save (run : list worksheet * option error)
  : option (list worksheet) * option error :=
  match run.1 with
  | [] => (None, Some IndexError)
  | _ => (Some run.1, run.2)
  end.

Section Exporter.
Variable same_title : string → string → bool.
Variable next_title : list string → string → string.
Variables (data_dir : string) (fs : gmap string DataFrame).

Definition export_table (region : string) (writer : list worksheet) (par : string)
  : list worksheet * option error :=
  let csv_path := path_join data_dir (csv_name region par) in
  match read_csv fs csv_path with
  | Ok df => to_excel same_title next_title writer (sheet_name region par) false df
  | Err e => (writer, Some e)
  end.

Definition export_region (par_list : list string) (writer : list worksheet)
    (region : string) : list worksheet * option error :=
  for_each (export_table region) par_list writer.

(** The [with] block: the workbook that is saved, if one is, and the
    exception that leaves the block, if one does. *)
Definition export_tables (region_list par_list : list string)
  : option (list worksheet) * option error :=
  save (for_each (export_region par_list) region_list []).
End Exporter.

Definition tables_to_excel (same_title : string → string → bool)
    (next_title : list string → string → string) (fs : gmap string DataFrame)
  : option (list worksheet) * option error :=
  export_tables same_title next_title data_fold fs regions pars.

(** ** Notions used in the statements *)

(** [df[label]]: the cells of a column, from the first row to the last. *)
Definition column (label : string) (df : DataFrame) : list cell :=
  (λ row, at_label (columns df) row label) <$> values df.

(** The year in a cell lies in the window [lo .. hi], both ends included. *)
Definition in_window (lo hi : Z) (y : cell) : Prop :=
  match y with
  | Int z => lo ≤ z ≤ hi
  | Float q => (inject_Z lo <= q)%Q ∧ (q <= inject_Z hi)%Q
  | NaN => False
  end.

(** What rounding and conversion make of a cell that is not missing. *)
Definition rounded (c : cell) : cell :=
  match c with
  | Float q => Int (to_int64 (rint q))
  | Int z => Int z
  | NaN => NaN
  end.

Definition rounded_frame (df : DataFrame) : DataFrame :=
  {| columns := columns df;
     values := (λ row : list cell, rounded <$> row) <$> values df |}.

Definition is_integer (c : cell) : Prop := ∃ z, c = Int z.

Definition all_integer (df : DataFrame) : Prop :=
  Forall (Forall is_integer) (values df).

(** No cell of the table is missing. *)
Definition complete (df : DataFrame) : Prop :=
  Forall (Forall (λ c, c ≠ NaN)) (values df).

Definition column_set (df : DataFrame) : gset string := list_to_set (columns df).

(** The order of two cells by their numbers; a missing cell is not compared. *)
Definition cell_le (a b : cell) : Prop :=
  match a, b with
  | Int x, Int y => x ≤ y
  | Int x, Float y => (inject_Z x <= y)%Q
  | Float x, Int y => (x <= inject_Z y)%Q
  | Float x, Float y => (x <= y)%Q
  | _, _ => False
  end.

(** A column in ascending order: every cell is at most every later one. *)
Definition ascending (l : list cell) : Prop := StronglySorted cell_le l.

(** A cell that holds a whole number, as the cells of a year column do. *)
Definition whole (c : cell) : Prop :=
  match c with
  | Int _ => True
  | Float q => ∃ z, (q == inject_Z z)%Q
  | NaN => False
  end.

(** A cell that rounding and conversion take to the nearest integer: a float
    whose rounded value lies in the range of [int64]; an integer cell is one
    already. *)
Definition fits_int64 (c : cell) : Prop :=
  match c with
  | Float q => int64_min ≤ rint q ≤ int64_max
  | _ => True
  end.

(** [df[cols]]: the table with its columns picked, by label, in the order of
    [cols]. *)
Definition reorder (cols : list string) (df : DataFrame) : DataFrame :=
  {| columns := cols; values := reindex cols df |}.

(** The legacy rows whose year lies in the window. *)
Definition rows_in_window (lo hi : Z) (df : DataFrame) : nat :=
  length (List.filter (λ row, between lo hi (at_label (columns df) row year_label))
            (values df)).

(** A pair of tables the merge is meant for: both well formed (the legacy one
    also under its new labels), a year column in the legacy table, the same
    set of columns after renaming, no missing cell. *)
Definition valid_pair (legacy current : DataFrame) : Prop :=
  well_formed (rename legacy_names legacy)
  ∧ well_formed current
  ∧ year_label ∈ columns legacy
  ∧ column_set (rename legacy_names legacy) = column_set current
  ∧ complete legacy
  ∧ complete current.

(** ** Tables of the scenarios *)

(** A legacy table with the years 1990 to 2019 under the legacy labels. *)
Definition legacy_1990_2019 : DataFrame :=
  {| columns := ["År"; "Bakgrun"; "Befolkning"; "Jordbruk"];
     values := (λ y, [Int y; Float (5 # 2); Int 3; Int (y - 1900)]) <$> seqZ 1990 30 |}.

(** A current table with the years 2018 to 2020 under the current labels. *)
Definition current_2018_2020 : DataFrame :=
  {| columns := ["År"; "Bakgrunn"; "Avløp"; "Jordbruk"];
     values := (λ y, [Int y; Float (27 # 10); Float (7 # 2); Int (y - 1900)])
                 <$> seqZ 2018 3 |}.

(** The legacy table of 1990 to 2019 after the window 1990 to 2017 and the
    rename. *)
Definition windowed_1990_2017 : DataFrame :=
  rename legacy_names
    {| columns := columns legacy_1990_2019;
       values := take 28 (values legacy_1990_2019) |}.

(** A legacy file whose years all lie after the window, and a store with it
    and the current table of 2018 to 2020 under the name of one entry. *)
Definition legacy_2018_2019 : DataFrame :=
  {| columns := ["År"; "Bakgrun"; "Befolkning"];
     values := [[Int 2018; Float (5 # 2); Int 3]; [Int 2019; Float (7 # 2); Int 4]] |}.

Definition store_late_legacy : gmap string DataFrame :=
  {[ path_join old_fold "Glomma_p.csv" := legacy_2018_2019;
     path_join new_fold "Glomma_p.csv" := current_2018_2020 ]}.

(** A current file with a value beyond the range of [int64], and a store
    with it and the legacy file above. *)
Definition current_huge : DataFrame :=
  {| columns := ["År"; "Bakgrunn"; "Avløp"];
     values := [[Int 2018; Float (5 # 2); Float (10000000000000000000 # 1)]] |}.

Definition store_huge : gmap string DataFrame :=
  {[ path_join old_fold "Nordland_p.csv" := legacy_2018_2019;
     path_join new_fold "Nordland_p.csv" := current_huge ]}.

(** A legacy file whose rows are not in the order of the years. *)
Definition legacy_unsorted : DataFrame :=
  {| columns := ["År"; "Bakgrun"; "Befolkning"];
     values := [[Int 2019; Float (5 # 2); Int 3]; [Int 1990; Float (7 # 2); Int 4];
                [Int 1991; Int 1; Int 1]] |}.

(** A legacy file whose years all lie before the window, with one column
    less than the current file of the entry. *)
Definition legacy_1985_1989 : DataFrame :=
  {| columns := ["År"; "Bakgrun"];
     values := (λ y, [Int y; Float (9 # 4)]) <$> seqZ 1985 5 |}.

Definition current_2018 : DataFrame :=
  {| columns := ["År"; "Bakgrunn"; "Avløp"];
     values := [[Int 2018; Float (5 # 2); Float (13 # 10)]] |}.

Definition store_early_legacy : gmap string DataFrame :=
  {[ path_join old_fold "Agder_n.csv" := legacy_1985_1989;
     path_join new_fold "Agder_n.csv" := current_2018 ]}.

(** A current table without the agriculture column, and a store with it and
    the legacy table of 1990 to 2019. *)
Definition current_without_jordbruk : DataFrame :=
  {| columns := ["År"; "Bakgrunn"; "Avløp"];
     values := (λ y, [Int y; Float (27 # 10); Float (7 # 2)]) <$> seqZ 2018 3 |}.

Definition store_without_jordbruk : gmap string DataFrame :=
  {[ path_join old_fold "Rogaland_p.csv" := legacy_1990_2019;
     path_join new_fold "Rogaland_p.csv" := current_without_jordbruk ]}.

(** The files a run has written when every entry of [entries] went through
    with the table listed for it in [outs]: one file per entry, written in
    the order of the entries. *)
Definition written (out_dir : string) (entries : list (string * string))
    (outs : list DataFrame) (fs : gmap string DataFrame) : gmap string DataFrame :=
  foldl (λ acc eo, to_csv (path_join out_dir (fst (fst eo))) (snd eo) acc)
        fs (zip entries outs).

(** A store with the two files of the first entry below and only the current
    file of the second. *)
Definition store_partial : gmap string DataFrame :=
  {[ path_join old_fold "Glomma_p.csv" := legacy_1990_2019;
     path_join new_fold "Glomma_p.csv" := current_2018_2020;
     path_join new_fold "Glomma_n.csv" := current_2018_2020;
     path_join old_fold "Vest-Viken_p.csv" := legacy_1990_2019;
     path_join new_fold "Vest-Viken_p.csv" := current_2018_2020 ]}.

(** The sheet of a table without index column: the labels, then the rows. *)
Definition sheet_of (region par : string) (df : DataFrame) : worksheet :=
  {| title := sheet_name region par;
     grid := (XlText <$> columns df)
               :: ((λ row : list cell, XlNumber <$> row) <$> values df) |}.

(** The titles of the sheets of a list of regions, in the order of the
    loops. *)
Definition region_titles (region_list : list string) : list string :=
  region_list ≫= (λ region, [region +:+ " (P)"; region +:+ " (N)"]).

(** Titles the engine uses as they are, in whatever order they come: it
    accepts each of them, and no two of them, nor one of them and the default
    title, are equal up to case. *)
Definition titles_kept (same_title : string → string → bool) (titles : list string)
  : Prop :=
  Forall (λ t, title_ok t = true) titles
  ∧ ∀ t u, t ∈ default_title :: titles → u ∈ default_title :: titles → t ≠ u →
           same_title t u = false.

(** The two tables of Glomma and of Agder in a data folder. *)
Definition store_glomma_agder : gmap string DataFrame :=
  {[ path_join data_fold "Glomma_p.csv" := current_2018_2020;
     path_join data_fold "Glomma_n.csv" := current_2018;
     path_join data_fold "Agder_p.csv" := current_without_jordbruk;
     path_join data_fold "Agder_n.csv" := current_2018_2020 ]}.

(** The tables of Glomma and of a region with a slash in its name. *)
Definition store_vest_viken : gmap string DataFrame :=
  {[ path_join data_fold "Glomma_p.csv" := current_2018_2020;
     path_join data_fold "Glomma_n.csv" := current_2018;
     path_join data_fold "Vest/Viken_p.csv" := current_without_jordbruk;
     path_join data_fold "Vest/Viken_n.csv" := current_2018_2020 ]}.

(** The order of two cells can be computed. *)
Global Instance Qle_dec (x y : Q) : Decision (x <= y)%Q.
Proof.
  refine (cast_if (decide (Qle_bool x y = true))); by rewrite <- Qle_bool_iff.
Defined.

Global Instance cell_le_dec : RelDecision cell_le.
Proof. intros [x|x|] [y|y|]; simpl; apply _. Defined.

(** A list of regions without the repetitions: every region at the place
    where it first stands. *)
Fixpoint first_occurrences_from (seen l : list string) : list string :=
  match l with
  | [] => []
  | x :: l' =>
      if decide (x ∈ seen) then first_occurrences_from seen l'
      else x :: first_occurrences_from (x :: seen) l'
  end.

Definition first_occurrences (l : list string) : list string :=
  first_occurrences_from [] l.

(** What the writer holds once the regions of [seen] have been written: a
    sheet per region of [seen] and parameter, made of the table of the pair,
    under distinct titles, and no other sheet. *)
Definition writer_holds (data_dir : string) (fs : gmap string DataFrame)
    (seen : list string) (writer : list worksheet) : Prop :=
  NoDup (title <$> writer)
  ∧ (∀ t, t ∈ title <$> writer →
       ∃ region par, region ∈ seen ∧ par ∈ pars ∧ t = sheet_name region par)
  ∧ (∀ region par, region ∈ seen → par ∈ pars →
       ∃ df, fs !! path_join data_dir (csv_name region par) = Some df
             ∧ sheet_of region par df ∈ writer).

(** A legacy table whose year column has another label. *)
Definition legacy_without_year : DataFrame :=
  {| columns := ["Year"; "Bakgrun"; "Befolkning"];
     values := [[Int 1990; Float (5 # 2); Int 3]] |}.

Definition store_without_year : gmap string DataFrame :=
  {[ path_join old_fold "Troms_p.csv" := legacy_without_year ]}.

(** * Properties *)

(** ** Labels and positions *)

Lemma get_loc_lookup label cols i :
  get_loc label cols = Some i → cols !! i = Some label.
Proof.
  revert i. induction cols as [|c cs IH]; intros i; simpl; [done|].
  destruct (decide (c = label)) as [->|Hne].
  - by intros [= <-].
  - destruct (get_loc label cs) as [j|] eqn:Hj; simpl; [|done].
    intros [= <-]. simpl. by apply IH.
Qed.

Lemma get_loc_lt label cols i :
  get_loc label cols = Some i → (i < length cols)%nat.
Proof. intros H. eapply lookup_lt_Some, get_loc_lookup, H. Qed.

Lemma get_loc_None label cols :
  get_loc label cols = None ↔ label ∉ cols.
Proof.
  induction cols as [|c cs IH]; simpl.
  - split; [intros _; apply not_elem_of_nil | done].
  - destruct (decide (c = label)) as [->|Hne].
    + split; [done | intros H; destruct H; left].
    + rewrite not_elem_of_cons, <- IH.
      destruct (get_loc label cs); simpl; split; try done; try tauto.
      intros [_ ?]; done.
Qed.

Lemma get_loc_is_Some label cols :
  label ∈ cols → ∃ i, get_loc label cols = Some i.
Proof.
  intros Hin. destruct (get_loc label cols) as [i|] eqn:H; [by exists i|].
  by apply get_loc_None in H.
Qed.

(** With distinct labels the position of a label is the place it stands at. *)
Lemma get_loc_NoDup cols i label :
  NoDup cols → cols !! i = Some label → get_loc label cols = Some i.
Proof.
  intros Hnd Hi.
  destruct (get_loc_is_Some label cols) as [j Hj].
  { eapply list_elem_of_lookup_2, Hi. }
  rewrite Hj. f_equal.
  eapply NoDup_lookup; eauto using get_loc_lookup.
Qed.

(** ** C5: the renaming of the legacy columns *)

Lemma rename_label_legacy c :
  rename_label legacy_names c =
    if decide (c = "Befolkning") then "Avløp"
    else if decide (c = "Bakgrun") then "Bakgrunn"
    else c.
Proof.
  unfold rename_label, legacy_names.
  destruct (decide (c = "Befolkning")) as [->|H1]; [done|].
  rewrite lookup_insert_ne by congruence.
  destruct (decide (c = "Bakgrun")) as [->|H2]; [done|].
  by rewrite lookup_singleton_ne by congruence.
Qed.

(** C5.  The rename step sends the legacy label Befolkning to Avløp and
    the legacy label Bakgrun to Bakgrunn, leaves every other label as it is,
    acts label by label on any list of columns (so the number and the order
    of the columns stay), and does not touch the rows. *)
Theorem rename_legacy_columns :
  rename_label legacy_names "Befolkning" = "Avløp"
  ∧ rename_label legacy_names "Bakgrun" = "Bakgrunn"
  ∧ (∀ c, c ≠ "Befolkning" → c ≠ "Bakgrun" → rename_label legacy_names c = c)
  ∧ (∀ df,
       columns (rename legacy_names df) =
         (λ c, if decide (c = "Befolkning") then "Avløp"
               else if decide (c = "Bakgrun") then "Bakgrunn"
               else c) <$> columns df
       ∧ values (rename legacy_names df) = values df).
Proof.
  split_and!.
  - by rewrite rename_label_legacy.
  - by rewrite rename_label_legacy.
  - intros c H1 H2. rewrite rename_label_legacy.
    by rewrite !decide_False.
  - intros df. split; [|done]. simpl.
    apply list_fmap_ext. intros _ c _. apply rename_label_legacy.
Qed.

(** ** Boolean filters *)

Section filter_facts.
Context {A : Type} (p : A → bool).

Lemma filter_sublist l : sublist (List.filter p l) l.
Proof.
  induction l as [|x l IH]; simpl; [constructor|].
  destruct (p x); by constructor.
Qed.

Lemma filter_split l :
  l ≡ₚ List.filter p l ++ List.filter (λ x, negb (p x)) l.
Proof.
  induction l as [|x l IH]; simpl; [done|].
  destruct (p x); simpl.
  - by f_equiv.
  - rewrite <- Permutation_middle. by f_equiv.
Qed.

Lemma elem_of_filter_bool l x : x ∈ List.filter p l ↔ x ∈ l ∧ p x = true.
Proof. by rewrite !list_elem_of_In, List.filter_In. Qed.

Lemma filter_Forall l : Forall (λ x, p x = true) (List.filter p l).
Proof.
  induction l as [|x l IH]; simpl; [constructor|].
  destruct (p x) eqn:Hx; [by constructor | done].
Qed.

Lemma filter_all l : Forall (λ x, p x = true) l → List.filter p l = l.
Proof.
  induction 1 as [|x l Hx _ IH]; simpl; [done|]. by rewrite Hx, IH.
Qed.

Lemma filter_none l : Forall (λ x, p x = false) l → List.filter p l = [].
Proof.
  induction 1 as [|x l Hx _ IH]; simpl; [done|]. by rewrite Hx.
Qed.

Lemma filter_fmap {B} (f : B → A) (l : list B) :
  List.filter p (f <$> l) = f <$> List.filter (λ x, p (f x)) l.
Proof.
  induction l as [|x l IH]; [done|].
  rewrite fmap_cons. cbn [List.filter].
  destruct (p (f x)); [rewrite fmap_cons|]; by rewrite IH.
Qed.
End filter_facts.

(** ** C4: the window on the legacy years *)

Lemma between_spec lo hi y : between lo hi y = true ↔ in_window lo hi y.
Proof.
  destruct y as [z|q|]; simpl.
  - rewrite andb_true_iff, !Z.leb_le. tauto.
  - by rewrite andb_true_iff, !Qle_bool_iff.
  - split; [discriminate | tauto].
Qed.

Lemma at_label_iloc cols row label i :
  get_loc label cols = Some i → at_label cols row label = iloc row i.
Proof. unfold at_label. by intros ->. Qed.

(** The rows kept out of a run of consecutive years. *)
Lemma between_consecutive lo hi first n :
  first ≤ lo → lo ≤ hi → hi < first + n →
  List.filter (between lo hi) (Int <$> seqZ first n) = Int <$> seqZ lo (hi - lo + 1).
Proof.
  intros H1 H2 H3.
  remember (lo - first) as a eqn:Ha.
  remember (hi - lo + 1) as b eqn:Hb.
  remember (first + n - hi - 1) as c eqn:Hc.
  replace n with (a + (b + c)) by lia.
  rewrite (seqZ_app first a), (seqZ_app (first + a) b) by lia.
  replace (first + a) with lo by lia.
  rewrite !fmap_app, !List.filter_app.
  rewrite (filter_none _ (Int <$> seqZ first a)), (filter_all _ (Int <$> seqZ lo b)),
    (filter_none _ (Int <$> seqZ (lo + b) c)); [by rewrite app_nil_r|..].
  all: apply Forall_fmap, Forall_forall; intros y Hy%elem_of_seqZ; simpl.
  - apply andb_false_iff. right. apply Z.leb_gt. lia.
  - apply andb_true_iff. rewrite !Z.leb_le. lia.
  - apply andb_false_iff. left. apply Z.leb_gt. lia.
Qed.

(** C4.  On a legacy table with a year column, the window step succeeds and
    keeps the header; the rows it keeps are rows of the table in their
    order, each with its year inside [lo .. hi] (both ends included), and
    the rows it drops are all the others, each with its year outside.  When
    the years of the table run through consecutive values from [first] on
    and the window lies inside them, exactly [hi - lo + 1] rows are kept
    (28 for the window 1990 .. 2017 on the years 1990 .. 2019). *)
Theorem window_keeps_years_in_range lo hi df :
  year_label ∈ columns df →
  ∃ out dropped,
    window lo hi df = Ok out
    ∧ columns out = columns df
    ∧ sublist (values out) (values df)
    ∧ values df ≡ₚ values out ++ dropped
    ∧ Forall (λ row, in_window lo hi (at_label (columns df) row year_label)) (values out)
    ∧ Forall (λ row, ¬ in_window lo hi (at_label (columns df) row year_label)) dropped
    ∧ (∀ first n,
         column year_label df = Int <$> seqZ first n →
         first ≤ lo → lo ≤ hi → hi < first + n →
         column year_label out = Int <$> seqZ lo (hi - lo + 1)
         ∧ Z.of_nat (length (values out)) = hi - lo + 1).
Proof.
  intros [i Hi]%get_loc_is_Some.
  unfold window, query. rewrite Hi.
  set (keep := λ row, between lo hi (iloc row i)).
  exists {| columns := columns df; values := List.filter keep (values df) |},
    (List.filter (λ row, negb (keep row)) (values df)).
  simpl. split_and!; try done.
  - apply filter_sublist.
  - apply filter_split.
  - eapply Forall_impl; [apply filter_Forall|]. intros row Hrow. simpl in Hrow.
    rewrite (at_label_iloc _ _ _ _ Hi). by apply between_spec.
  - eapply Forall_impl; [apply filter_Forall|]. intros row Hrow. simpl in Hrow.
    rewrite (at_label_iloc _ _ _ _ Hi), <- between_spec.
    unfold keep in Hrow. by destruct (between lo hi (iloc row i)).
  - intros first n Hcol H1 H2 H3.
    assert (column year_label
              {| columns := columns df; values := List.filter keep (values df) |}
            = Int <$> seqZ lo (hi - lo + 1)) as Hout.
    { rewrite <- (between_consecutive lo hi first n) by done.
      rewrite <- Hcol. unfold column. cbn [columns values]. rewrite filter_fmap.
      f_equal. unfold keep.
      apply List.filter_ext. intros row. by rewrite (at_label_iloc _ _ _ _ Hi). }
    split; [done|].
    apply (f_equal length) in Hout.
    unfold column in Hout. rewrite !length_fmap, length_seqZ in Hout. simpl in Hout.
    lia.
Qed.

Lemma window_1990_2017_keeps_28 :
  ∃ out, window 1990 2017 legacy_1990_2019 = Ok out
         ∧ column year_label out = Int <$> seqZ 1990 28
         ∧ length (values out) = 28%nat.
Proof.
  destruct (window_keeps_years_in_range 1990 2017 legacy_1990_2019)
    as (out & dropped & Hw & _ & _ & _ & _ & _ & Hcount).
  { vm_compute. apply list_elem_of_here. }
  destruct (Hcount 1990 30) as [Hcol Hlen]; [by vm_compute | lia..|].
  exists out. split_and!; [done | done | lia].
Defined.

(** ** Rounding and conversion *)

Section rint_facts.
Variable q : Q.
Abbreviation n := (Qnum q).
Abbreviation d := (Z.pos (Qden q)).

(** Twice the distance to the rounded value, in units of [1/d]. *)
Lemma rint_half : 2 * Z.abs (rint q * d - n) ≤ d.
Proof.
  unfold rint.
  pose proof (Z.div_mod n d ltac:(lia)) as Hdm.
  pose proof (Z.mod_pos_bound n d ltac:(lia)) as Hr.
  destruct (Z.compare_spec (2 * (n mod d)) d) as [He|Hl|Hg];
    [destruct (Z.even (n / d))|..]; nia.
Qed.

Lemma rint_tie_even : 2 * Z.abs (rint q * d - n) = d → Z.even (rint q) = true.
Proof.
  unfold rint.
  pose proof (Z.div_mod n d ltac:(lia)) as Hdm.
  pose proof (Z.mod_pos_bound n d ltac:(lia)) as Hr.
  destruct (Z.compare_spec (2 * (n mod d)) d) as [He|Hl|Hg].
  - destruct (Z.even (n / d)) eqn:Hev; [done|].
    intros _. rewrite Z.even_add, Hev. done.
  - intros H. exfalso. nia.
  - intros H. exfalso. nia.
Qed.

Lemma rint_nearest z : Z.abs (rint q * d - n) ≤ Z.abs (z * d - n).
Proof.
  pose proof rint_half as Hh.
  assert (0 < d) as Hd by lia.
  destruct (decide (z = rint q)) as [->|Hne]; [lia|].
  assert (d ≤ Z.abs ((z - rint q) * d)) as Hfar by nia.
  lia.
Qed.
End rint_facts.

Lemma Qabs_diff_inject z q :
  Qabs (inject_Z z - q) = (Z.abs (z * Z.pos (Qden q) - Qnum q) # Qden q)%Q.
Proof.
  destruct q as [n d]. unfold Qabs, Qminus, Qplus, Qopp, inject_Z. simpl.
  f_equal. f_equal. lia.
Qed.

(** Ties go to the even neighbour, on both sides of zero. *)
Example rint_ties :
  rint (5 # 2) = 2 ∧ rint (7 # 2) = 4 ∧ rint (-5 # 2) = -2 ∧ rint (-7 # 2) = -4
  ∧ rint (27 # 10) = 3 ∧ rint (-13 # 10) = -1.
Proof. by vm_compute. Qed.

Lemma rint_inject_Z z : rint (inject_Z z) = z.
Proof.
  unfold rint, inject_Z. simpl.
  by rewrite Z.div_1_r, Z.mod_1_r.
Qed.

Lemma astype_round_cell c c' :
  astype_int_cell (round_cell c) = Ok c' ↔ c ≠ NaN ∧ c' = rounded c.
Proof.
  destruct c as [z|q|]; simpl.
  - split; [by intros [= <-] | by intros [_ ->]].
  - rewrite Z.quot_1_r. split; [by intros [= <-] | by intros [_ ->]].
  - split; [done | by intros [? _]].
Qed.

Lemma row_complete_or_missing (row : list cell) :
  Forall (λ c, c ≠ NaN) row ∨ NaN ∈ row.
Proof.
  induction row as [|c row [IH|IH]].
  - left. constructor.
  - destruct c as [z|q|]; [left; by constructor..|right; left].
  - right. by right.
Qed.

Lemma complete_or_missing df :
  complete df ∨ ∃ row, row ∈ values df ∧ NaN ∈ row.
Proof.
  unfold complete. induction (values df) as [|row rows [IH|(r & Hr & Hnan)]].
  - left. constructor.
  - destruct (row_complete_or_missing row) as [Hrow|Hrow].
    + left. by constructor.
    + right. exists row. split; [left | done].
  - right. exists r. split; [by right | done].
Qed.

Lemma complete_missing_absurd df row :
  complete df → row ∈ values df → NaN ∈ row → False.
Proof.
  intros Hc Hrow Hnan.
  eapply Forall_forall in Hc; [|exact Hrow].
  eapply Forall_forall in Hc; [|exact Hnan]. done.
Qed.

Lemma normalize_row_complete (row : list cell) :
  Forall (λ c, c ≠ NaN) row →
  traverse astype_int_cell (round_cell <$> row) = Ok (rounded <$> row).
Proof.
  induction 1 as [|c row Hc _ IH]; [done|].
  rewrite !fmap_cons. cbn [traverse].
  destruct (astype_round_cell c (rounded c)) as [_ ->]; [|done].
  simpl. by rewrite IH.
Qed.

Lemma normalize_row_missing (row : list cell) :
  NaN ∈ row →
  traverse astype_int_cell (round_cell <$> row) = Err IntCastingNaNError.
Proof.
  induction row as [|c row IH]; [by intros ?%elem_of_nil|].
  intros Hin. rewrite fmap_cons. cbn [traverse].
  destruct c as [z|q|]; [| |done].
  - apply elem_of_cons in Hin as [?|Hin]; [done|]. simpl. by rewrite IH.
  - apply elem_of_cons in Hin as [?|Hin]; [done|]. simpl. by rewrite IH.
Qed.

Lemma normalize_complete df :
  complete df → normalize df = Ok (rounded_frame df).
Proof.
  unfold normalize, astype_int, round0, rounded_frame, complete. simpl.
  intros Hc.
  assert (traverse (traverse astype_int_cell)
            ((λ row : list cell, round_cell <$> row) <$> values df)
          = Ok ((λ row : list cell, rounded <$> row) <$> values df)) as ->; [|done].
  induction Hc as [|row rows Hrow _ IH]; [done|].
  rewrite !fmap_cons. cbn [traverse].
  rewrite (normalize_row_complete row Hrow). simpl. by rewrite IH.
Qed.

Lemma normalize_missing df row :
  row ∈ values df → NaN ∈ row → normalize df = Err IntCastingNaNError.
Proof.
  unfold normalize, astype_int, round0. simpl.
  intros Hrow Hnan.
  assert (traverse (traverse astype_int_cell)
            ((λ row : list cell, round_cell <$> row) <$> values df)
          = Err IntCastingNaNError) as ->; [|done].
  induction (values df) as [|r rows IH]; [by apply elem_of_nil in Hrow|].
  rewrite fmap_cons. cbn [traverse].
  destruct (row_complete_or_missing r) as [Hr|Hr].
  - rewrite (normalize_row_complete r Hr). simpl.
    apply elem_of_cons in Hrow as [->|Hrow].
    + exfalso. eapply Forall_forall in Hr; [|exact Hnan]. done.
    + by rewrite IH.
  - by rewrite (normalize_row_missing r Hr).
Qed.

Lemma normalize_Ok df out :
  normalize df = Ok out ↔ complete df ∧ out = rounded_frame df.
Proof.
  split.
  - intros H. destruct (complete_or_missing df) as [Hc|(row & Hrow & Hnan)].
    + split; [done|]. rewrite (normalize_complete df Hc) in H. by injection H.
    + by rewrite (normalize_missing df row Hrow Hnan) in H.
  - intros [Hc ->]. by apply normalize_complete.
Qed.

Lemma normalize_Err df e :
  normalize df = Err e → e = IntCastingNaNError ∧ ¬ complete df.
Proof.
  intros H. destruct (complete_or_missing df) as [Hc|(row & Hrow & Hnan)].
  - by rewrite (normalize_complete df Hc) in H.
  - rewrite (normalize_missing df row Hrow Hnan) in H.
    split; [by injection H|]. intros Hc. eapply complete_missing_absurd; eauto.
Qed.

Lemma rounded_is_integer c : c ≠ NaN → is_integer (rounded c).
Proof. destruct c as [z|q|]; [by exists z | by eexists | done]. Qed.

Lemma rounded_integer c : is_integer c → rounded c = c.
Proof. by intros [z ->]. Qed.

Lemma all_integer_complete df : all_integer df → complete df.
Proof.
  unfold all_integer, complete. intros H.
  eapply Forall_impl; [exact H|]. intros row Hrow.
  eapply Forall_impl; [exact Hrow|]. by intros c [z ->].
Qed.

Lemma rounded_frame_integer df : all_integer df → rounded_frame df = df.
Proof.
  destruct df as [cols rows]. unfold all_integer, rounded_frame. simpl.
  intros H. f_equal.
  induction H as [|row rows Hrow _ IH]; [done|].
  rewrite fmap_cons, IH. f_equal.
  induction Hrow as [|c row Hc _ IHrow]; [done|].
  by rewrite fmap_cons, IHrow, rounded_integer.
Qed.

Lemma rounded_frame_all_integer df : complete df → all_integer (rounded_frame df).
Proof.
  unfold all_integer, complete, rounded_frame. simpl. intros H.
  apply Forall_fmap. eapply Forall_impl; [exact H|]. intros row Hrow. simpl.
  apply Forall_fmap. eapply Forall_impl; [exact Hrow|]. intros c Hc. simpl.
  by apply rounded_is_integer.
Qed.

(** ** The loop body, step by step *)

Lemma read_csv_Ok (fs : gmap string DataFrame) path df :
  read_csv fs path = Ok df ↔ fs !! path = Some df.
Proof.
  unfold read_csv. destruct (fs !! path); split; intros H; by simplify_eq.
Qed.

Lemma merge_pair_Ok lo hi od nd ot (fs fs' : gmap string DataFrame) new_fname old_fname :
  merge_pair lo hi od nd ot fs (new_fname, old_fname) = Ok fs' ↔
  ∃ legacy w current out,
    fs !! path_join od old_fname = Some legacy
    ∧ window lo hi legacy = Ok w
    ∧ fs !! path_join nd new_fname = Some current
    ∧ merge_frames (rename legacy_names w) current = Ok out
    ∧ fs' = <[path_join ot new_fname := out]> fs.
Proof.
  unfold merge_pair, read_csv, to_csv. split.
  - destruct (fs !! path_join od old_fname) as [legacy|]; simpl; [|done].
    destruct (window lo hi legacy) as [w|] eqn:Hw; simpl; [|done].
    destruct (fs !! path_join nd new_fname) as [current|]; simpl; [|done].
    destruct (merge_frames (rename legacy_names w) current) as [out|] eqn:Hm;
      simpl; [|done].
    intros [= <-]. exists legacy, w, current, out. split_and!; done.
  - intros (legacy & w & current & out & -> & Hw & -> & Hm & ->). simpl.
    rewrite Hw. simpl. by rewrite Hm.
Qed.

Lemma merge_pair_frames lo hi od nd ot (fs : gmap string DataFrame)
    new_fname old_fname legacy w current :
  fs !! path_join od old_fname = Some legacy →
  window lo hi legacy = Ok w →
  fs !! path_join nd new_fname = Some current →
  merge_pair lo hi od nd ot fs (new_fname, old_fname)
  = (merge_df ← merge_frames (rename legacy_names w) current;
     Ok (to_csv (path_join ot new_fname) merge_df fs)).
Proof.
  intros Hold Hw Hnew. unfold merge_pair, read_csv. rewrite Hold. simpl.
  rewrite Hw. simpl. by rewrite Hnew.
Qed.

Lemma merge_pair_result lo hi od nd ot (fs : gmap string DataFrame)
    new_fname old_fname legacy w current out :
  fs !! path_join od old_fname = Some legacy →
  window lo hi legacy = Ok w →
  fs !! path_join nd new_fname = Some current →
  merge_frames (rename legacy_names w) current = Ok out →
  merge_pair lo hi od nd ot fs (new_fname, old_fname)
  = Ok (<[path_join ot new_fname := out]> fs).
Proof.
  intros Hold Hw Hnew Hm. apply merge_pair_Ok.
  exists legacy, w, current, out. split_and!; done.
Qed.

(** ** C6: numeric normalization *)

Lemma to_int64_in_range z : int64_min ≤ z ≤ int64_max → to_int64 z = z.
Proof.
  intros [H1 H2]. unfold to_int64.
  apply Z.leb_le in H1, H2. by rewrite H1, H2.
Qed.

Lemma to_int64_out_of_range z : ¬ (int64_min ≤ z ≤ int64_max) → to_int64 z = int64_min.
Proof.
  intros H. unfold to_int64.
  destruct (int64_min <=? z) eqn:H1; [|done].
  destruct (z <=? int64_max) eqn:H2; [|done].
  apply Z.leb_le in H1, H2. exfalso. by apply H.
Qed.

Lemma normalize_cells df out :
  normalize df = Ok out →
  Forall2 (Forall2 (λ c c', c ≠ NaN ∧ c' = rounded c)) (values df) (values out).
Proof.
  intros [Hc ->]%normalize_Ok. unfold rounded_frame, complete in *. cbn [values].
  apply Forall2_fmap_r, Forall_Forall2_diag.
  eapply Forall_impl; [exact Hc|]. intros row Hrow. simpl.
  apply Forall2_fmap_r, Forall_Forall2_diag.
  eapply Forall_impl; [exact Hrow|]. by intros c Hne.
Qed.

(** Against C6 as it is stated: a current file with the value 10^19 in one
    cell (and a legacy file with no year in the window); the loop body writes
    the least [int64] for this cell, which is not the integer nearest to
    it. *)
Lemma huge_value_is_not_rounded :
  merge_pair old_st old_end old_fold new_fold merge_fold store_huge
    ("Nordland_p.csv", "Nordland_p.csv")
  = Ok (<[ path_join merge_fold "Nordland_p.csv" :=
             {| columns := ["År"; "Bakgrunn"; "Avløp"];
                values := [[Int 2018; Int 2; Int (-9223372036854775808)]] |} ]>
          store_huge)
  ∧ rint (10000000000000000000 # 1) = 10000000000000000000
  ∧ ¬ (Qabs (inject_Z (-9223372036854775808) - (10000000000000000000 # 1)) <= 1 # 2)%Q.
Proof.
  split_and!; [|by vm_compute|by vm_compute].
  apply (merge_pair_result _ _ _ _ _ _ _ _ legacy_2018_2019
           {| columns := columns legacy_2018_2019; values := [] |} current_huge);
    by vm_compute.
Qed.

(** C6 (as the code has it).  Rounding takes a float to an integer nearest
    to it (no integer is closer, the distance is at most one half, and on a
    tie the even neighbour is taken).  Rounding followed by the conversion
    turns an integer cell into itself; it turns a float cell into its rounded
    value, as an integer cell, when that value lies in the range of [int64],
    and into the least [int64] when it does not.  A table that normalizes
    keeps its header and its shape, every cell of the result is what rounding
    and conversion make of the cell at its place, all of them are integers,
    and normalizing the result again changes nothing.  The file a successful
    loop body writes holds only integer cells; when the two files read have
    rows and distinct labels, its rows are, cell by cell, what rounding and
    conversion make of the rows of the concatenation. *)
Theorem normalization_rounds_to_integers :
  (∀ q z, (Qabs (inject_Z (rint q) - q) <= Qabs (inject_Z z - q))%Q)
  ∧ (∀ q, (Qabs (inject_Z (rint q) - q) <= 1 # 2)%Q)
  ∧ (∀ q, (Qabs (inject_Z (rint q) - q) == 1 # 2)%Q → Z.even (rint q) = true)
  ∧ (∀ z, astype_int_cell (round_cell (Int z)) = Ok (Int z))
  ∧ (∀ q, int64_min ≤ rint q ≤ int64_max →
       astype_int_cell (round_cell (Float q)) = Ok (Int (rint q)))
  ∧ (∀ q, ¬ (int64_min ≤ rint q ≤ int64_max) →
       astype_int_cell (round_cell (Float q)) = Ok (Int int64_min))
  ∧ (∀ z, rint (inject_Z z) = z)
  ∧ (∀ df out, normalize df = Ok out →
       columns out = columns df
       ∧ Forall2 (Forall2 (λ c c', astype_int_cell (round_cell c) = Ok c'))
           (values df) (values out)
       ∧ all_integer out
       ∧ normalize out = Ok out)
  ∧ (∀ lo hi od nd ot fs fs' new_fname old_fname,
       merge_pair lo hi od nd ot fs (new_fname, old_fname) = Ok fs' →
       ∃ out, fs' !! path_join ot new_fname = Some out ∧ all_integer out)
  ∧ (∀ lo hi od nd ot (fs fs' : gmap string DataFrame) new_fname old_fname
       legacy w current,
       fs !! path_join od old_fname = Some legacy →
       window lo hi legacy = Ok w →
       fs !! path_join nd new_fname = Some current →
       values legacy ≠ [] → values current ≠ [] →
       well_formed (rename legacy_names w) → well_formed current →
       merge_pair lo hi od nd ot fs (new_fname, old_fname) = Ok fs' →
       ∃ out, fs' = <[path_join ot new_fname := out]> fs
              ∧ Forall2 (Forall2 (λ c c', astype_int_cell (round_cell c) = Ok c'))
                  (values (concat (rename legacy_names w) current)) (values out)).
Proof.
  split_and!.
  - intros q z. rewrite !Qabs_diff_inject. unfold Qle. simpl.
    pose proof (rint_nearest q z). nia.
  - intros q. rewrite Qabs_diff_inject. unfold Qle. simpl.
    pose proof (rint_half q). lia.
  - intros q. rewrite Qabs_diff_inject. unfold Qeq. simpl. intros H.
    apply rint_tie_even. lia.
  - done.
  - intros q Hq. apply astype_round_cell. split; [done|].
    simpl. by rewrite to_int64_in_range.
  - intros q Hq. apply astype_round_cell. split; [done|].
    simpl. by rewrite to_int64_out_of_range.
  - apply rint_inject_Z.
  - intros df out Hn. pose proof (normalize_cells df out Hn) as Hcells.
    apply normalize_Ok in Hn as [Hc ->].
    pose proof (rounded_frame_all_integer df Hc) as Hint.
    split_and!; [done | | done |].
    + eapply Forall2_impl; [exact Hcells|]. intros row row' Hrow. simpl.
      eapply Forall2_impl; [exact Hrow|]. intros c c' Hcc. by apply astype_round_cell.
    + apply normalize_Ok. split; [by apply all_integer_complete|].
      symmetry. by apply rounded_frame_integer.
  - intros lo hi od nd ot fs fs' nf of_ H.
    apply merge_pair_Ok in H as (legacy & w & current & out & _ & _ & _ & Hm & ->).
    exists out. split; [by rewrite lookup_insert_eq|].
    unfold merge_frames in Hm. apply normalize_Ok in Hm as [Hc ->].
    by apply rounded_frame_all_integer.
  - intros lo hi od nd ot fs fs' nf of_ legacy w current Hold Hw Hnew _ _ _ _.
    rewrite (merge_pair_frames _ _ _ _ _ _ _ _ _ _ _ Hold Hw Hnew).
    destruct (merge_frames (rename legacy_names w) current) as [out|e] eqn:Hm;
      simpl; [|done].
    intros [= <-]. exists out. split; [done|].
    unfold merge_frames in Hm. apply normalize_cells in Hm.
    eapply Forall2_impl; [exact Hm|]. intros row row' Hrow. simpl.
    eapply Forall2_impl; [exact Hrow|]. intros c c' Hcc. by apply astype_round_cell.
Qed.

(** ** Concatenation lays rows out by label *)

Lemma at_label_absent cols row label :
  label ∉ cols → at_label cols row label = NaN.
Proof. intros H%get_loc_None. unfold at_label. by rewrite H. Qed.

Lemma at_label_present cols (row : list cell) label :
  label ∈ cols → length row = length cols → Forall (λ c, c ≠ NaN) row →
  at_label cols row label ≠ NaN.
Proof.
  intros [i Hi]%get_loc_is_Some Hlen Hrow. unfold at_label, iloc. rewrite Hi.
  destruct (lookup_lt_is_Some_2 row i) as [c Hc].
  { rewrite Hlen. eapply get_loc_lt, Hi. }
  rewrite Hc. simpl. eapply Forall_forall in Hrow; [exact Hrow|].
  eapply list_elem_of_lookup_2, Hc.
Qed.

Lemma at_label_reindex src dst row label :
  at_label dst (reindex_row src dst row) label =
    if decide (label ∈ dst) then at_label src row label else NaN.
Proof.
  unfold reindex_row. destruct (decide (label ∈ dst)) as [Hin|Hout].
  - destruct (get_loc_is_Some _ _ Hin) as [i Hi].
    unfold at_label at 1. rewrite Hi. unfold iloc.
    rewrite list_lookup_fmap, (get_loc_lookup _ _ _ Hi). done.
  - by apply at_label_absent.
Qed.

Lemma at_label_rounded cols (row : list cell) label :
  at_label cols (rounded <$> row) label = rounded (at_label cols row label).
Proof.
  unfold at_label. destruct (get_loc label cols) as [i|]; [|done].
  unfold iloc. rewrite list_lookup_fmap. by destruct (row !! i).
Qed.

Lemma elem_of_union_index a b c :
  c ∈ union_index a b ↔ c ∈ a ∨ c ∈ b.
Proof.
  unfold union_index. rewrite elem_of_app, elem_of_filter_bool, bool_decide_eq_true.
  destruct (decide (c ∈ a)); tauto.
Qed.

Lemma union_index_same a b :
  (∀ c, c ∈ b → c ∈ a) → union_index a b = a.
Proof.
  intros Hsub. unfold union_index. rewrite filter_none; [by rewrite app_nil_r|].
  apply Forall_forall. intros c Hc. apply bool_decide_eq_false.
  intros Hout. by apply Hout, Hsub.
Qed.

Lemma column_set_elem_of df c : c ∈ column_set df ↔ c ∈ columns df.
Proof. unfold column_set. apply elem_of_list_to_set. Qed.

Lemma column_set_concat a b :
  column_set (concat a b) = column_set a ∪ column_set b.
Proof.
  apply set_eq. intros c.
  rewrite elem_of_union, !column_set_elem_of. apply elem_of_union_index.
Qed.

Lemma reindex_row_missing src dst row c :
  c ∈ dst → c ∉ src → NaN ∈ reindex_row src dst row.
Proof.
  intros Hdst Hsrc. unfold reindex_row. apply list_elem_of_fmap.
  exists c. split; [|done]. symmetry. by apply at_label_absent.
Qed.

Lemma reindex_row_complete src dst (row : list cell) :
  (∀ c, c ∈ dst → c ∈ src) → length row = length src →
  Forall (λ c, c ≠ NaN) row → Forall (λ c, c ≠ NaN) (reindex_row src dst row).
Proof.
  intros Hsub Hlen Hrow. unfold reindex_row. apply Forall_fmap, Forall_forall.
  intros c Hc. simpl. apply at_label_present; auto.
Qed.

Lemma concat_complete a b :
  well_formed a → well_formed b → column_set a = column_set b →
  complete a → complete b → complete (concat a b).
Proof.
  intros [_ Ha] [_ Hb] Hset Hca Hcb.
  assert (∀ c, c ∈ union_index (columns a) (columns b) → c ∈ columns a ∧ c ∈ columns b)
    as Hsub.
  { intros c Hc%elem_of_union_index.
    rewrite <- !column_set_elem_of, <- Hset in *. tauto. }
  unfold complete, concat, reindex. simpl. apply Forall_app. split.
  - apply Forall_fmap, Forall_forall. intros row Hrow. simpl.
    apply reindex_row_complete; [intros c Hc; by destruct (Hsub c Hc)|..].
    + eapply Forall_forall in Ha; [exact Ha | done].
    + eapply Forall_forall in Hca; [exact Hca | done].
  - apply Forall_fmap, Forall_forall. intros row Hrow. simpl.
    apply reindex_row_complete; [intros c Hc; by destruct (Hsub c Hc)|..].
    + eapply Forall_forall in Hb; [exact Hb | done].
    + eapply Forall_forall in Hcb; [exact Hcb | done].
Qed.

Lemma concat_missing_left a b c :
  c ∈ columns b → c ∉ columns a → values a ≠ [] →
  ∃ row, row ∈ values (concat a b) ∧ NaN ∈ row.
Proof.
  intros Hb Ha Hrows. destruct (values a) as [|row rows] eqn:Hv; [done|].
  exists (reindex_row (columns a) (union_index (columns a) (columns b)) row). split.
  - unfold concat, reindex. simpl. rewrite Hv, fmap_cons. apply elem_of_app. left. left.
  - apply (reindex_row_missing _ _ _ c); [|done].
    apply elem_of_union_index. by right.
Qed.

Lemma concat_missing_right a b c :
  c ∈ columns a → c ∉ columns b → values b ≠ [] →
  ∃ row, row ∈ values (concat a b) ∧ NaN ∈ row.
Proof.
  intros Ha Hb Hrows. destruct (values b) as [|row rows] eqn:Hv; [done|].
  exists (reindex_row (columns b) (union_index (columns a) (columns b)) row). split.
  - unfold concat, reindex. simpl. rewrite Hv, fmap_cons. apply elem_of_app. right. left.
  - apply (reindex_row_missing _ _ _ c); [|done].
    apply elem_of_union_index. by left.
Qed.

Lemma merge_frames_length a b out :
  merge_frames a b = Ok out →
  length (values out) = (length (values a) + length (values b))%nat.
Proof.
  unfold merge_frames. intros [_ ->]%normalize_Ok.
  unfold rounded_frame, concat, reindex. simpl.
  by rewrite length_fmap, length_app, !length_fmap.
Qed.

(** The loop body on small tables: the legacy row of 1989 and the one of
    2018 fall outside the window, the columns of the current table are laid
    out under the renamed legacy labels, the numbers are rounded. *)
Example merge_small :
  (w ← window 1990 2017
         {| columns := ["År"; "Bakgrun"; "Befolkning"];
            values := [[Int 1989; Float (5 # 2); Int 3];
                       [Int 1990; Float (7 # 2); Float (1 # 3)];
                       [Int 2018; Int 1; Int 1]] |};
   merge_frames (rename legacy_names w)
     {| columns := ["Avløp"; "År"; "Bakgrunn"];
        values := [[Float (-5 # 2); Int 2018; Float (-7 # 2)]] |})
  = Ok {| columns := ["År"; "Bakgrunn"; "Avløp"];
          values := [[Int 1990; Int 4; Int 0]; [Int 2018; Int (-4); Int (-2)]] |}.
Proof. by vm_compute. Qed.

(** ** C3: the number of merged rows *)

Lemma window_Ok lo hi df w :
  window lo hi df = Ok w ↔
  ∃ i, get_loc year_label (columns df) = Some i
       ∧ w = {| columns := columns df;
                values := List.filter (λ row, between lo hi (iloc row i)) (values df) |}.
Proof.
  unfold window, query. destruct (get_loc year_label (columns df)) as [i|].
  - split; [intros [= <-]; by exists i | by intros (? & [= <-] & ->)].
  - split; [done | by intros (? & ? & _)].
Qed.

Lemma window_succeeds lo hi df :
  year_label ∈ columns df → ∃ w, window lo hi df = Ok w.
Proof.
  intros [i Hi]%get_loc_is_Some. unfold window, query. rewrite Hi. eauto.
Qed.

Lemma window_length lo hi df w :
  window lo hi df = Ok w → length (values w) = rows_in_window lo hi df.
Proof.
  intros (i & Hi & ->)%window_Ok. unfold rows_in_window. simpl. f_equal.
  apply List.filter_ext. intros row. by rewrite (at_label_iloc _ _ _ _ Hi).
Qed.

Lemma window_rows lo hi df w row :
  window lo hi df = Ok w → row ∈ values w → row ∈ values df.
Proof.
  intros (i & Hi & ->)%window_Ok. simpl. by intros [? _]%elem_of_filter_bool.
Qed.

Lemma window_columns lo hi df w :
  window lo hi df = Ok w → columns w = columns df.
Proof. by intros (i & Hi & ->)%window_Ok. Qed.

Lemma window_rename_well_formed lo hi df w :
  window lo hi df = Ok w →
  well_formed (rename legacy_names df) → well_formed (rename legacy_names w).
Proof.
  intros Hw [Hnd Hrows]. unfold well_formed in *. simpl in *.
  rewrite (window_columns _ _ _ _ Hw). split; [done|].
  apply Forall_forall. intros row Hrow.
  eapply Forall_forall in Hrows; [exact Hrows|]. eapply window_rows; eauto.
Qed.

Lemma window_complete lo hi df w :
  window lo hi df = Ok w → complete df → complete w.
Proof.
  intros Hw Hc. unfold complete in *.
  apply Forall_forall. intros row Hrow.
  eapply Forall_forall in Hc; [exact Hc|]. eapply window_rows; eauto.
Qed.

(** C3.  For a valid pair the window step and the merge both succeed, and
    the merged table has as many rows as the legacy table has rows with the
    year in the window plus the rows of the current table (whether or not the
    years of the two tables overlap; nothing is removed or added); with
    both files in place the loop body writes exactly this table. *)
Theorem merged_row_count lo hi legacy current :
  valid_pair legacy current →
  ∃ w out,
    window lo hi legacy = Ok w
    ∧ merge_frames (rename legacy_names w) current = Ok out
    ∧ length (values out) = (rows_in_window lo hi legacy + length (values current))%nat
    ∧ ∀ od nd ot (fs : gmap string DataFrame) new_fname old_fname,
        fs !! path_join od old_fname = Some legacy →
        fs !! path_join nd new_fname = Some current →
        merge_pair lo hi od nd ot fs (new_fname, old_fname)
        = Ok (<[path_join ot new_fname := out]> fs).
Proof.
  intros (Hwl & Hwc & Hyear & Hset & Hcl & Hcc).
  destruct (window_succeeds lo hi legacy Hyear) as [w Hw].
  pose proof (window_columns _ _ _ _ Hw) as Hcols.
  assert (complete (concat (rename legacy_names w) current)) as Hcomplete.
  { apply concat_complete.
    - eapply window_rename_well_formed; eauto.
    - done.
    - rewrite <- Hset. unfold column_set. simpl. by rewrite Hcols.
    - exact (window_complete lo hi legacy w Hw Hcl).
    - done. }
  exists w, (rounded_frame (concat (rename legacy_names w) current)).
  assert (merge_frames (rename legacy_names w) current
          = Ok (rounded_frame (concat (rename legacy_names w) current))) as Hm.
  { by apply normalize_complete. }
  split_and!; [done | done | |].
  - rewrite (merge_frames_length _ _ _ Hm). simpl.
    by rewrite (window_length _ _ _ _ Hw).
  - intros od nd ot fs nf of_ Hold Hnew. apply merge_pair_Ok.
    exists legacy, w, current, (rounded_frame (concat (rename legacy_names w) current)).
    split_and!; done.
Qed.

Lemma merged_scenario_31_rows :
  ∃ w out,
    window 1990 2017 legacy_1990_2019 = Ok w
    ∧ merge_frames (rename legacy_names w) current_2018_2020 = Ok out
    ∧ length (values out) = 31%nat.
Proof.
  destruct (merged_row_count 1990 2017 legacy_1990_2019 current_2018_2020)
    as (w & out & Hw & Hm & Hlen & _).
  { unfold valid_pair, well_formed, complete. split_and!; compute_done. }
  exists w, out. split_and!; [done | done |].
  rewrite Hlen. by vm_compute.
Defined.

(** ** C7: the order of the merged rows *)

Lemma column_concat label a b :
  column label (concat a b) = column label a ++ column label b.
Proof.
  unfold column, concat, reindex. cbn [columns values].
  rewrite fmap_app, <- !list_fmap_compose. f_equal.
  - apply list_fmap_ext. intros _ row _. simpl. rewrite at_label_reindex.
    case_decide as Hin; [done|]. symmetry. apply at_label_absent.
    intros Ha. apply Hin, elem_of_union_index. by left.
  - apply list_fmap_ext. intros _ row _. simpl. rewrite at_label_reindex.
    case_decide as Hin; [done|]. symmetry. apply at_label_absent.
    intros Hb. apply Hin, elem_of_union_index. by right.
Qed.

Lemma column_rounded_frame label df :
  column label (rounded_frame df) = rounded <$> column label df.
Proof.
  unfold column, rounded_frame. cbn [columns values].
  rewrite <- !list_fmap_compose. apply list_fmap_ext. intros _ row _. simpl.
  apply at_label_rounded.
Qed.

Lemma get_loc_rename_year cols :
  get_loc year_label (rename_label legacy_names <$> cols) = get_loc year_label cols.
Proof.
  induction cols as [|c cs IH]; [done|].
  rewrite fmap_cons. cbn [get_loc]. rewrite IH, rename_label_legacy.
  unfold year_label. repeat case_decide; simplify_eq; done.
Qed.

Lemma column_rename_year df :
  column year_label (rename legacy_names df) = column year_label df.
Proof.
  unfold column, at_label. simpl. by rewrite get_loc_rename_year.
Qed.

Lemma rint_whole q z : (q == inject_Z z)%Q → rint q = z.
Proof.
  unfold Qeq, rint. simpl. intros H.
  assert (Qnum q = z * Z.pos (Qden q)) as -> by lia.
  rewrite Z.div_mul, Z.mod_mul by lia. done.
Qed.

Lemma cell_le_rounded a b :
  whole a → fits_int64 a → whole b → fits_int64 b →
  cell_le (rounded a) (rounded b) → cell_le a b.
Proof.
  destruct a as [x|x|], b as [y|y|]; simpl; try done.
  - intros _ _ [z Hz] Hy. rewrite to_int64_in_range by done.
    rewrite (rint_whole _ _ Hz), Hz. by rewrite <- Zle_Qle.
  - intros [z Hz] Hx _ _. rewrite to_int64_in_range by done.
    rewrite (rint_whole _ _ Hz), Hz. by rewrite <- Zle_Qle.
  - intros [z Hz] Hx [z' Hz'] Hy. rewrite !to_int64_in_range by done.
    rewrite (rint_whole _ _ Hz), (rint_whole _ _ Hz'), Hz, Hz'.
    by rewrite <- Zle_Qle.
Qed.

Lemma ascending_rounded l :
  Forall whole l → Forall fits_int64 l → ascending (rounded <$> l) → ascending l.
Proof.
  unfold ascending. intros Hw. induction Hw as [|c l Hc Hl IH]; [constructor|].
  intros [Hfc Hfl]%Forall_cons. rewrite fmap_cons.
  intros [Hs Hall]%StronglySorted_inv.
  constructor; [by apply IH|].
  rewrite Forall_fmap, Forall_forall in Hall.
  rewrite Forall_forall in Hl. rewrite Forall_forall in Hfl.
  apply Forall_forall. intros c' Hc'.
  apply cell_le_rounded; [done | done | by apply Hl | by apply Hfl |].
  exact (Hall c' Hc').
Qed.

(** Against C7 as it is stated: a legacy file whose rows are not in the
    order of the years (2019, 1990, 1991) and a current file with the year
    2018; the window drops the row of 2019, and the merged table is in
    ascending order of the year although the legacy input is not. *)
Lemma unsorted_legacy_sorted_output :
  ∃ w out,
    window old_st old_end legacy_unsorted = Ok w
    ∧ merge_frames (rename legacy_names w) current_2018 = Ok out
    ∧ column year_label out = [Int 1990; Int 1991; Int 2018]
    ∧ ascending (column year_label out)
    ∧ ¬ ascending (column year_label legacy_unsorted).
Proof.
  exists {| columns := columns legacy_unsorted;
            values := drop 1 (values legacy_unsorted) |},
    {| columns := ["År"; "Bakgrunn"; "Avløp"];
       values := [[Int 1990; Int 4; Int 4]; [Int 1991; Int 1; Int 1];
                  [Int 2018; Int 2; Int 1]] |}.
  split_and!; [by vm_compute | by vm_compute | by vm_compute
              | unfold ascending; compute_done | unfold ascending; compute_done].
Qed.

(** C7 (as the code has it).  For two files with rows and distinct labels,
    when the window step and the merge succeed, the merged rows are a first
    block that matches the kept legacy rows one by one, in their order,
    followed by a second block that matches the current rows one by one, in
    their order: a merged row holds under every label what rounding and
    conversion make of the cell of its source row (under the renamed label
    for a legacy row).  The kept legacy rows stand in the order they have in
    the legacy table.  The year column of the result is the years of the kept
    legacy rows followed by the years of the current rows, converted and not
    sorted; so when these years are whole numbers in the range of [int64]
    and the result is in ascending order, the kept legacy rows and the
    current rows already were.  The legacy rows outside the window play no
    part. *)
Theorem merge_keeps_block_order lo hi legacy current w out :
  values legacy ≠ [] → values current ≠ [] →
  well_formed (rename legacy_names legacy) → well_formed current →
  window lo hi legacy = Ok w →
  merge_frames (rename legacy_names w) current = Ok out →
  ∃ head tail,
    values out = head ++ tail
    ∧ Forall2 (λ row row', ∀ label,
         at_label (columns out) row' label
         = rounded (at_label (columns (rename legacy_names w)) row label))
        (values w) head
    ∧ Forall2 (λ row row', ∀ label,
         at_label (columns out) row' label
         = rounded (at_label (columns current) row label))
        (values current) tail
    ∧ sublist (values w) (values legacy)
    ∧ column year_label out
      = rounded <$> (column year_label w ++ column year_label current)
    ∧ (Forall whole (column year_label w) →
       Forall fits_int64 (column year_label w) →
       Forall whole (column year_label current) →
       Forall fits_int64 (column year_label current) →
       ascending (column year_label out) →
       ascending (column year_label w) ∧ ascending (column year_label current)).
Proof.
  intros _ _ _ _ Hw Hm. unfold merge_frames in Hm. apply normalize_Ok in Hm as [_ ->].
  assert (column year_label (rounded_frame (concat (rename legacy_names w) current))
          = rounded <$> (column year_label w ++ column year_label current)) as Hyears.
  { by rewrite column_rounded_frame, column_concat, column_rename_year. }
  set (old_df := rename legacy_names w) in *.
  set (cols := union_index (columns old_df) (columns current)).
  exists ((λ row : list cell, rounded <$> row) <$> reindex cols old_df),
    ((λ row : list cell, rounded <$> row) <$> reindex cols current).
  split_and!.
  - unfold rounded_frame, concat. cbn [columns values]. by rewrite fmap_app.
  - unfold reindex. rewrite <- list_fmap_compose.
    apply Forall2_fmap_r, Forall_Forall2_diag, Forall_forall.
    intros row _ label. cbn [rounded_frame concat columns compose].
    rewrite at_label_rounded, at_label_reindex. fold cols old_df.
    case_decide as Hin; [done|]. f_equal. symmetry. apply at_label_absent.
    intros Ha. apply Hin, elem_of_union_index. by left.
  - unfold reindex. rewrite <- list_fmap_compose.
    apply Forall2_fmap_r, Forall_Forall2_diag, Forall_forall.
    intros row _ label. cbn [rounded_frame concat columns compose].
    rewrite at_label_rounded, at_label_reindex. fold cols.
    case_decide as Hin; [done|]. f_equal. symmetry. apply at_label_absent.
    intros Hb. apply Hin, elem_of_union_index. by right.
  - apply window_Ok in Hw as (i & _ & ->). apply filter_sublist.
  - exact Hyears.
  - intros Hwo Hfo Hwc Hfc. rewrite Hyears, fmap_app. unfold ascending at 1.
    intros Hs. split.
    + apply ascending_rounded; [done | done |]. by apply StronglySorted_app_1_l in Hs.
    + apply ascending_rounded; [done | done |]. by apply StronglySorted_app_1_r in Hs.
Qed.

Lemma merged_scenario_block_order :
  ∃ out,
    merge_frames (rename legacy_names
        {| columns := columns legacy_1990_2019;
           values := take 28 (values legacy_1990_2019) |}) current_2018_2020 = Ok out
    ∧ column year_label out = Int <$> (seqZ 1990 28 ++ seqZ 2018 3).
Proof.
  pose (w := {| columns := columns legacy_1990_2019;
                values := take 28 (values legacy_1990_2019) |}).
  pose (out := rounded_frame (concat (rename legacy_names w) current_2018_2020)).
  destruct (merge_keeps_block_order 1990 2017 legacy_1990_2019 current_2018_2020 w out)
    as (head & tail & _ & _ & _ & _ & Hyears & _).
  { by vm_compute. }
  { by vm_compute. }
  { unfold well_formed. split; compute_done. }
  { unfold well_formed. split; compute_done. }
  { by vm_compute. }
  { by vm_compute. }
  exists out. split; [by vm_compute|].
  rewrite Hyears. by vm_compute.
Defined.

(** ** C1 and C2: tables whose columns differ *)

Lemma reindex_reorder cols dst df :
  (∀ c, c ∈ columns df → c ∈ cols) →
  reindex dst (reorder cols df) = reindex dst df.
Proof.
  intros Hsub. unfold reorder, reindex. cbn [columns values].
  rewrite <- list_fmap_compose. apply list_fmap_ext. intros _ row _. simpl.
  unfold reindex_row at 1 3. apply list_fmap_ext. intros _ c _.
  rewrite at_label_reindex. case_decide as Hin; [done|].
  symmetry. apply at_label_absent. intros Hc. by apply Hin, Hsub.
Qed.

Lemma merge_frames_missing a b row :
  row ∈ values (concat a b) → NaN ∈ row → merge_frames a b = Err IntCastingNaNError.
Proof. apply normalize_missing. Qed.

Lemma reindex_row_complete_iff src dst (row : list cell) :
  Forall (λ c, c ≠ NaN) (reindex_row src dst row)
  ↔ ∀ c, c ∈ dst → at_label src row c ≠ NaN.
Proof. unfold reindex_row. by rewrite Forall_fmap, Forall_forall. Qed.

Lemma concat_complete_iff a b :
  complete (concat a b) ↔
  (∀ row c, row ∈ values a → c ∈ columns a ∨ c ∈ columns b →
     at_label (columns a) row c ≠ NaN)
  ∧ (∀ row c, row ∈ values b → c ∈ columns a ∨ c ∈ columns b →
       at_label (columns b) row c ≠ NaN).
Proof.
  unfold complete, concat, reindex. cbn [values].
  rewrite Forall_app, !Forall_fmap, !Forall_forall.
  split.
  - intros [Ha Hb]. split; intros row c Hrow Hc.
    + specialize (Ha row Hrow). simpl in Ha.
      rewrite reindex_row_complete_iff in Ha. by apply Ha, elem_of_union_index.
    + specialize (Hb row Hrow). simpl in Hb.
      rewrite reindex_row_complete_iff in Hb. by apply Hb, elem_of_union_index.
  - intros [Ha Hb]. split; intros row Hrow; simpl;
      apply reindex_row_complete_iff; intros c Hc%elem_of_union_index; auto.
Qed.

Lemma concat_reorder_complete a b cols :
  cols ≡ₚ columns b →
  complete (concat a (reorder cols b)) ↔ complete (concat a b).
Proof.
  intros Hperm. rewrite !concat_complete_iff. unfold reorder, reindex.
  cbn [columns values]. split.
  - intros [Ha Hb]. split.
    + intros row c Hrow Hc. apply Ha; [done|]. by rewrite Hperm.
    + intros row c Hrow Hc.
      specialize (Hb (reindex_row (columns b) cols row) c).
      rewrite at_label_reindex in Hb. case_decide as Hin.
      * apply Hb; [|by rewrite Hperm]. apply list_elem_of_fmap. by exists row.
      * exfalso. apply Hb; [|by rewrite Hperm|done].
        apply list_elem_of_fmap. by exists row.
  - intros [Ha Hb]. split.
    + intros row c Hrow Hc. apply Ha; [done|]. by rewrite <- Hperm.
    + intros r c (row & -> & Hrow)%list_elem_of_fmap Hc.
      rewrite at_label_reindex. rewrite Hperm in Hc. case_decide as Hin.
      * by apply Hb.
      * specialize (Hb row c Hrow Hc). rewrite at_label_absent in Hb; [done|].
        by rewrite <- Hperm.
Qed.

Lemma is_ok_normalize df : is_ok (normalize df) = true ↔ complete df.
Proof.
  destruct (normalize df) as [out|e] eqn:H; simpl.
  - apply normalize_Ok in H as [Hc _]. by split.
  - apply normalize_Err in H as [_ Hc]. split; [done | by intros ?%Hc].
Qed.

Lemma is_ok_merge_reorder a b cols :
  cols ≡ₚ columns b →
  is_ok (merge_frames a (reorder cols b)) = is_ok (merge_frames a b).
Proof.
  intros Hperm. unfold merge_frames.
  pose proof (is_ok_normalize (concat a (reorder cols b))) as H1.
  pose proof (is_ok_normalize (concat a b)) as H2.
  pose proof (concat_reorder_complete a b cols Hperm) as H3.
  destruct (is_ok (normalize (concat a (reorder cols b)))),
    (is_ok (normalize (concat a b))); try done.
  - symmetry. apply H2, H3, H1. done.
  - apply H1, H3, H2. done.
Qed.

(** C1 (as the code has it).  The loop has no check of the column sets and
    no error of its own for them: the concatenation matches the columns of
    the two tables by label.  For an entry whose two files are in place, have
    rows and have distinct labels (the legacy ones after the rename), with
    the window step done: giving the columns of the current table another
    order never changes whether the merge succeeds; when the column sets are
    equal it does not change the result either, and tables without missing
    cells are merged and written, on the columns of the legacy table; when a
    column of the current table is absent from the legacy table and the
    window has kept a row, or a column of the legacy table is absent from the
    current table, the conversion to integers fails with IntCastingNaNError
    and the run stops at this entry with the file system as it was. *)
Theorem columns_are_matched_by_label lo hi od nd ot (fs : gmap string DataFrame)
    new_fname old_fname legacy w current :
  fs !! path_join od old_fname = Some legacy →
  window lo hi legacy = Ok w →
  fs !! path_join nd new_fname = Some current →
  values legacy ≠ [] → values current ≠ [] →
  well_formed (rename legacy_names legacy) → well_formed current →
  (∀ cols, cols ≡ₚ columns current →
     is_ok (merge_frames (rename legacy_names w) (reorder cols current))
     = is_ok (merge_frames (rename legacy_names w) current))
  ∧ (column_set (rename legacy_names w) = column_set current →
     (∀ cols, cols ≡ₚ columns current →
        merge_frames (rename legacy_names w) (reorder cols current)
        = merge_frames (rename legacy_names w) current)
     ∧ (complete w → complete current →
        ∃ out, merge_pair lo hi od nd ot fs (new_fname, old_fname)
               = Ok (<[path_join ot new_fname := out]> fs)
               ∧ columns out = columns (rename legacy_names w)))
  ∧ ((∃ c, c ∈ columns current ∧ c ∉ columns (rename legacy_names w)) ∧ values w ≠ []
     ∨ (∃ c, c ∈ columns (rename legacy_names w) ∧ c ∉ columns current) →
     merge_pair lo hi od nd ot fs (new_fname, old_fname) = Err IntCastingNaNError
     ∧ ∀ rest, merge_all lo hi od nd ot ((new_fname, old_fname) :: rest) fs
               = (fs, Some IntCastingNaNError)).
Proof.
  intros Hold Hw Hnew _ Hrows Hwl Hwc.
  pose proof (window_rename_well_formed _ _ _ _ Hw Hwl) as Hwa.
  split_and!.
  - intros cols Hperm. by apply is_ok_merge_reorder.
  - intros Hset.
    assert (∀ c, c ∈ columns current → c ∈ columns (rename legacy_names w)) as Hsub.
    { intros c. by rewrite <- !column_set_elem_of, Hset. }
    split.
    + intros cols Hperm. unfold merge_frames. f_equal.
      unfold concat. cbn [columns reorder].
      rewrite !union_index_same; [|done|by intros c Hc; apply Hsub; rewrite <- Hperm].
      f_equal. f_equal. apply reindex_reorder. intros c Hc. by rewrite Hperm.
    + intros Hca Hcb.
      exists (rounded_frame (concat (rename legacy_names w) current)). split.
      * apply (merge_pair_result _ _ _ _ _ _ _ _ legacy w current); try done.
        apply normalize_complete. by apply concat_complete.
      * cbn [rounded_frame concat columns]. by apply union_index_same.
  - intros Hmiss.
    assert (∃ row, row ∈ values (concat (rename legacy_names w) current) ∧ NaN ∈ row)
      as (row & Hrow & Hnan).
    { destruct Hmiss as [[(c & Hc & Hnc) Hkept]|(c & Hc & Hnc)].
      - by apply (concat_missing_left _ _ c).
      - by apply (concat_missing_right _ _ c). }
    assert (merge_pair lo hi od nd ot fs (new_fname, old_fname) = Err IntCastingNaNError)
      as Hpair.
    { rewrite (merge_pair_frames _ _ _ _ _ _ _ _ _ _ _ Hold Hw Hnew).
      by rewrite (merge_frames_missing _ _ row Hrow Hnan). }
    split; [done|]. intros rest. cbn [merge_all]. by rewrite Hpair.
Qed.

Lemma reordered_current_merges_alike :
  merge_frames windowed_1990_2017
    (reorder ["Jordbruk"; "Avløp"; "År"; "Bakgrunn"] current_2018_2020)
  = merge_frames windowed_1990_2017 current_2018_2020
  ∧ ∃ out, merge_pair old_st old_end old_fold new_fold merge_fold store_partial
             ("Glomma_p.csv", "Glomma_p.csv")
           = Ok (<[path_join merge_fold "Glomma_p.csv" := out]> store_partial)
           ∧ columns out = ["År"; "Bakgrunn"; "Avløp"; "Jordbruk"].
Proof.
  pose (w := {| columns := columns legacy_1990_2019;
                values := take 28 (values legacy_1990_2019) |}).
  destruct (columns_are_matched_by_label old_st old_end old_fold new_fold merge_fold
              store_partial "Glomma_p.csv" "Glomma_p.csv"
              legacy_1990_2019 w current_2018_2020)
    as (_ & Hsame & _).
  { by vm_compute. }
  { by vm_compute. }
  { by vm_compute. }
  { by vm_compute. }
  { by vm_compute. }
  { unfold well_formed. split; compute_done. }
  { unfold well_formed. split; compute_done. }
  destruct Hsame as [Horder Hok]; [compute_done|].
  split.
  - apply Horder. compute_done.
  - apply Hok; unfold complete; compute_done.
Defined.

(** Against C1 as the specification states it: a legacy file with no year
    in the window and a current file with other columns; the column sets
    differ after the rename, no error is raised, and the output is
    written. *)
Lemma differing_columns_without_error :
  ∃ w,
    window old_st old_end legacy_2018_2019 = Ok w
    ∧ column_set (rename legacy_names w) ≠ column_set current_2018_2020
    ∧ merge_pair old_st old_end old_fold new_fold merge_fold store_late_legacy
        ("Glomma_p.csv", "Glomma_p.csv")
      = Ok (<[ path_join merge_fold "Glomma_p.csv" :=
                 {| columns := ["År"; "Bakgrunn"; "Avløp"; "Jordbruk"];
                    values := [[Int 2018; Int 3; Int 4; Int 118];
                               [Int 2019; Int 3; Int 4; Int 119];
                               [Int 2020; Int 3; Int 4; Int 120]] |} ]>
              store_late_legacy).
Proof.
  exists {| columns := columns legacy_2018_2019; values := [] |}.
  split_and!; [by vm_compute | compute_done |].
  apply (merge_pair_result _ _ _ _ _ _ _ _ legacy_2018_2019
           {| columns := columns legacy_2018_2019; values := [] |} current_2018_2020);
    by vm_compute.
Qed.

(** C2 (as the code has it).  For an entry whose two files are in place,
    have rows and have distinct labels (the legacy ones after the rename),
    with the window step done: the concatenation has the union of the two
    column sets.  When a column of the current table is absent from the
    legacy table and the window has kept a row, or a column of the legacy
    table is absent from the current table, the concatenation has a missing
    cell, the conversion to integers raises IntCastingNaNError, and the run
    stops at this entry with the file system as it was: nothing is written
    for the pair.  Whenever the body does write, the written table has the
    union of the column sets and integer cells only: no column is dropped
    and no missing value is written. *)
Theorem missing_cell_stops_the_pair lo hi od nd ot (fs : gmap string DataFrame)
    new_fname old_fname legacy w current :
  fs !! path_join od old_fname = Some legacy →
  window lo hi legacy = Ok w →
  fs !! path_join nd new_fname = Some current →
  values legacy ≠ [] → values current ≠ [] →
  well_formed (rename legacy_names legacy) → well_formed current →
  column_set (concat (rename legacy_names w) current)
  = column_set (rename legacy_names w) ∪ column_set current
  ∧ ((∃ c, c ∈ columns current ∧ c ∉ columns (rename legacy_names w)) ∧ values w ≠ []
     ∨ (∃ c, c ∈ columns (rename legacy_names w) ∧ c ∉ columns current) →
     (∃ row, row ∈ values (concat (rename legacy_names w) current) ∧ NaN ∈ row)
     ∧ merge_pair lo hi od nd ot fs (new_fname, old_fname) = Err IntCastingNaNError
     ∧ ∀ rest, merge_all lo hi od nd ot ((new_fname, old_fname) :: rest) fs
               = (fs, Some IntCastingNaNError))
  ∧ (∀ fs', merge_pair lo hi od nd ot fs (new_fname, old_fname) = Ok fs' →
       ∃ out, fs' = <[path_join ot new_fname := out]> fs
              ∧ column_set out = column_set (rename legacy_names w) ∪ column_set current
              ∧ all_integer out).
Proof.
  intros Hold Hw Hnew _ Hrows _ _. split_and!.
  - apply column_set_concat.
  - intros Hmiss.
    assert (∃ row, row ∈ values (concat (rename legacy_names w) current) ∧ NaN ∈ row)
      as (row & Hrow & Hnan).
    { destruct Hmiss as [[(c & Hc & Hnc) Hkept]|(c & Hc & Hnc)].
      - by apply (concat_missing_left _ _ c).
      - by apply (concat_missing_right _ _ c). }
    assert (merge_pair lo hi od nd ot fs (new_fname, old_fname) = Err IntCastingNaNError)
      as Hpair.
    { rewrite (merge_pair_frames _ _ _ _ _ _ _ _ _ _ _ Hold Hw Hnew).
      by rewrite (merge_frames_missing _ _ row Hrow Hnan). }
    split_and!; [by exists row | done |].
    intros rest. cbn [merge_all]. by rewrite Hpair.
  - intros fs'. rewrite (merge_pair_frames _ _ _ _ _ _ _ _ _ _ _ Hold Hw Hnew).
    unfold merge_frames.
    destruct (normalize (concat (rename legacy_names w) current)) as [out|e] eqn:Hn;
      simpl; [|done].
    intros [= <-]. exists out. apply normalize_Ok in Hn as [Hc ->].
    split_and!; [done | apply column_set_concat | by apply rounded_frame_all_integer].
Qed.

Lemma missing_cell_stops_rogaland :
  merge_all old_st old_end old_fold new_fold merge_fold
    [("Rogaland_p.csv", "Rogaland_p.csv"); ("Rogaland_n.csv", "Rogaland_n.csv")]
    store_without_jordbruk
  = (store_without_jordbruk, Some IntCastingNaNError).
Proof.
  pose (w := {| columns := columns legacy_1990_2019;
                values := take 28 (values legacy_1990_2019) |}).
  destruct (missing_cell_stops_the_pair old_st old_end old_fold new_fold merge_fold
              store_without_jordbruk "Rogaland_p.csv" "Rogaland_p.csv"
              legacy_1990_2019 w current_without_jordbruk)
    as (_ & Hstop & _).
  { by vm_compute. }
  { by vm_compute. }
  { by vm_compute. }
  { by vm_compute. }
  { by vm_compute. }
  { unfold well_formed. split; compute_done. }
  { unfold well_formed. split; compute_done. }
  destruct Hstop as (_ & _ & Hall).
  { right. exists "Jordbruk". split; compute_done. }
  apply Hall.
Defined.

(** Against C2 as it is stated: a legacy file with no year in the window
    and one column less than the current file; the column sets differ after
    the rename, the conversion raises nothing, and the output is written. *)
Lemma differing_columns_written :
  ∃ w,
    window old_st old_end legacy_1985_1989 = Ok w
    ∧ column_set (rename legacy_names w) ≠ column_set current_2018
    ∧ merge_all old_st old_end old_fold new_fold merge_fold
        [("Agder_n.csv", "Agder_n.csv")] store_early_legacy
      = (<[ path_join merge_fold "Agder_n.csv" :=
              {| columns := ["År"; "Bakgrunn"; "Avløp"];
                 values := [[Int 2018; Int 2; Int 1]] |} ]> store_early_legacy,
         None).
Proof.
  exists {| columns := columns legacy_1985_1989; values := [] |}.
  split_and!; [by vm_compute | compute_done |].
  cbn [merge_all].
  rewrite (merge_pair_result _ _ _ _ _ _ _ _ legacy_1985_1989
             {| columns := columns legacy_1985_1989; values := [] |} current_2018
             {| columns := ["År"; "Bakgrunn"; "Avløp"];
                values := [[Int 2018; Int 2; Int 1]] |});
    [reflexivity | by vm_compute..].
Qed.

(** ** C9: a missing input file *)

Lemma merge_pair_writes_one lo hi od nd ot (fs fs' : gmap string DataFrame)
    new_fname old_fname :
  merge_pair lo hi od nd ot fs (new_fname, old_fname) = Ok fs' →
  ∃ out, fs' = to_csv (path_join ot new_fname) out fs.
Proof.
  intros (legacy & w & current & out & _ & _ & _ & _ & ->)%merge_pair_Ok.
  by exists out.
Qed.

(** Against C9 as it is stated: the current file of the entry is absent and
    the legacy file is there, without a year column; the body fails, but not
    with the error for a missing file: the window step fails first, with
    UndefinedVariableError. *)
Lemma absent_current_file_not_reported :
  store_without_year !! path_join new_fold "Troms_p.csv" = None
  ∧ store_without_year !! path_join old_fold "Troms_p.csv" = Some legacy_without_year
  ∧ merge_pair old_st old_end old_fold new_fold merge_fold store_without_year
      ("Troms_p.csv", "Troms_p.csv")
    = Err (UndefinedVariableError "År").
Proof. split_and!; by vm_compute. Qed.

(** C9 (as the code has it).  When the legacy file is absent the loop body
    fails with FileNotFoundError on the legacy path; when the legacy file is
    there, with its year column, and the current file is absent, it fails
    with FileNotFoundError on the current path; when the legacy file is
    there without a year column, it fails with UndefinedVariableError on the
    year label, whether or not the current file is there.  Whenever one of
    the two files is absent the body fails and the run stops at this entry
    with the file system as it was.  A body that succeeds has read both files
    and differs from the file system before it by the one file it wrote
    last. *)
Theorem missing_input_stops_the_pair lo hi od nd ot (fs : gmap string DataFrame)
    new_fname old_fname :
  (fs !! path_join od old_fname = None →
     merge_pair lo hi od nd ot fs (new_fname, old_fname)
     = Err (FileNotFoundError (path_join od old_fname)))
  ∧ (∀ legacy,
       fs !! path_join od old_fname = Some legacy →
       year_label ∈ columns legacy →
       fs !! path_join nd new_fname = None →
       merge_pair lo hi od nd ot fs (new_fname, old_fname)
       = Err (FileNotFoundError (path_join nd new_fname)))
  ∧ (∀ legacy,
       fs !! path_join od old_fname = Some legacy →
       year_label ∉ columns legacy →
       merge_pair lo hi od nd ot fs (new_fname, old_fname)
       = Err (UndefinedVariableError year_label))
  ∧ (fs !! path_join od old_fname = None ∨ fs !! path_join nd new_fname = None →
       ∃ e, merge_pair lo hi od nd ot fs (new_fname, old_fname) = Err e
            ∧ ∀ rest, merge_all lo hi od nd ot ((new_fname, old_fname) :: rest) fs
                      = (fs, Some e))
  ∧ (∀ fs', merge_pair lo hi od nd ot fs (new_fname, old_fname) = Ok fs' →
       is_Some (fs !! path_join od old_fname)
       ∧ is_Some (fs !! path_join nd new_fname)
       ∧ ∃ out, fs' = <[path_join ot new_fname := out]> fs).
Proof.
  split_and!.
  - intros Hold. unfold merge_pair, read_csv. by rewrite Hold.
  - intros legacy Hold [w Hw]%(window_succeeds lo hi) Hnew.
    unfold merge_pair, read_csv. rewrite Hold. simpl. rewrite Hw. simpl.
    by rewrite Hnew.
  - intros legacy Hold Hyear%get_loc_None.
    unfold merge_pair, read_csv, window, query. rewrite Hold. simpl.
    by rewrite Hyear.
  - intros Habsent.
    destruct (merge_pair lo hi od nd ot fs (new_fname, old_fname)) as [fs'|e] eqn:Hp.
    + apply merge_pair_Ok in Hp as (? & ? & ? & ? & Hold & _ & Hnew & _).
      destruct Habsent; simplify_eq.
    + exists e. split; [done|]. intros rest. cbn [merge_all]. by rewrite Hp.
  - intros fs' (legacy & w & current & out & Hold & _ & Hnew & _ & ->)%merge_pair_Ok.
    split_and!; [by eexists | by eexists | by exists out].
Qed.

(** ** C10: the run over the entries *)

Section batch.
Variables (lo hi : Z) (od nd ot : string).
Lemma written_cons d l out outs (fs : gmap string DataFrame) :
  written ot (d :: l) (out :: outs) fs
  = written ot l outs (to_csv (path_join ot d.1) out fs).
Proof. done. Qed.

Lemma merge_all_app l1 l2 (fs : gmap string DataFrame) :
  merge_all lo hi od nd ot (l1 ++ l2) fs =
    match merge_all lo hi od nd ot l1 fs with
    | (fs1, None) => merge_all lo hi od nd ot l2 fs1
    | stopped => stopped
    end.
Proof.
  revert fs. induction l1 as [|entry l1 IH]; intros fs; [done|].
  cbn [app merge_all]. destruct (merge_pair lo hi od nd ot fs entry) as [fs'|e]; [apply IH | done].
Qed.

(** A merge_all lo hi od nd ot that went through wrote one file per entry, in their order. *)
Lemma merge_all_written l (fs fs' : gmap string DataFrame) :
  merge_all lo hi od nd ot l fs = (fs', None) →
  ∃ outs, length outs = length l ∧ fs' = written ot l outs fs.
Proof.
  revert fs. induction l as [|[nf of_] l IH]; intros fs.
  - intros [= <-]. by exists [].
  - cbn [merge_all]. destruct (merge_pair lo hi od nd ot fs (nf, of_)) as [fs1|e] eqn:Hp; [|done].
    intros (outs & Hlen & ->)%IH.
    apply merge_pair_writes_one in Hp as [out ->].
    exists (out :: outs). split; [simpl; by rewrite Hlen | done].
Qed.

Lemma written_lookup_other l outs (fs : gmap string DataFrame) p :
  (∀ d, d ∈ l → p ≠ path_join ot d.1) → written ot l outs fs !! p = fs !! p.
Proof.
  revert outs fs. induction l as [|d l IH]; intros outs fs Hp; [done|].
  destruct outs as [|out outs]; [done|].
  rewrite written_cons.
  rewrite IH by (intros d' Hd'; apply Hp; by right).
  unfold to_csv. rewrite lookup_insert_ne; [done|].
  intros Heq. by apply (Hp d); [left|].
Qed.

Lemma written_keeps l outs (fs : gmap string DataFrame) p :
  is_Some (fs !! p) → is_Some (written ot l outs fs !! p).
Proof.
  revert outs fs. induction l as [|d l IH]; intros outs fs Hp; [done|].
  destruct outs as [|out outs]; [done|].
  rewrite written_cons.
  apply IH. unfold to_csv. rewrite lookup_insert. by case_decide.
Qed.

Lemma written_outputs l outs (fs : gmap string DataFrame) d :
  length outs = length l → d ∈ l →
  is_Some (written ot l outs fs !! path_join ot d.1).
Proof.
  revert outs fs. induction l as [|d' l IH]; intros outs fs Hlen Hd.
  - by apply elem_of_nil in Hd.
  - destruct outs as [|out outs]; [done|]. injection Hlen as Hlen.
    rewrite written_cons.
    apply elem_of_cons in Hd as [->|Hd].
    + apply written_keeps. unfold to_csv. rewrite lookup_insert_eq. by eexists.
    + by apply IH.
Qed.
End batch.

(** The keys of the dictionary are distinct: its items are the listed pairs,
    in their order. *)
Lemma fname_dict_keys_distinct : NoDup (fname_dict.*1).
Proof. compute_done. Qed.

(** C10.  The run takes the entries in their order.  When the entries of
    [done] go through and the body then fails on [entry], the whole run
    stops with this error whatever entries follow, and the file system it
    leaves is the one after [done]: it holds one written file per entry of
    [done] (written in their order, each still there) and is otherwise
    unchanged; nothing of [rest] is read or written. *)
Theorem run_stops_at_first_error lo hi od nd ot done entry rest
    (fs fs1 : gmap string DataFrame) e :
  merge_all lo hi od nd ot done fs = (fs1, None) →
  merge_pair lo hi od nd ot fs1 entry = Err e →
  merge_all lo hi od nd ot (done ++ entry :: rest) fs = (fs1, Some e)
  ∧ (∃ outs, length outs = length done ∧ fs1 = written ot done outs fs)
  ∧ (∀ d, d ∈ done → is_Some (fs1 !! path_join ot d.1))
  ∧ (∀ p, (∀ d, d ∈ done → p ≠ path_join ot d.1) → fs1 !! p = fs !! p).
Proof.
  intros Hdone Hfail.
  destruct (merge_all_written _ _ _ _ _ _ _ _ Hdone) as (outs & Hlen & Hfs1).
  split_and!.
  - rewrite merge_all_app, Hdone. cbn [merge_all]. by rewrite Hfail.
  - by exists outs.
  - intros d Hd. rewrite Hfs1. by apply written_outputs.
  - intros p Hp. rewrite Hfs1. by apply written_lookup_other.
Qed.

Lemma run_stops_at_glomma_n :
  merge_all old_st old_end old_fold new_fold merge_fold
    [("Glomma_p.csv", "Glomma_p.csv"); ("Glomma_n.csv", "Glomma_n.csv");
     ("Vest-Viken_p.csv", "Vest-Viken_p.csv")] store_partial
  = (<[path_join merge_fold "Glomma_p.csv" :=
         rounded_frame (concat windowed_1990_2017 current_2018_2020)]> store_partial,
     Some (FileNotFoundError (path_join old_fold "Glomma_n.csv"))).
Proof.
  destruct (run_stops_at_first_error old_st old_end old_fold new_fold merge_fold
              [("Glomma_p.csv", "Glomma_p.csv")] ("Glomma_n.csv", "Glomma_n.csv")
              [("Vest-Viken_p.csv", "Vest-Viken_p.csv")]
              store_partial
              (<[path_join merge_fold "Glomma_p.csv" :=
                   rounded_frame (concat windowed_1990_2017 current_2018_2020)]>
                 store_partial)
              (FileNotFoundError (path_join old_fold "Glomma_n.csv")))
    as (Hrun & _).
  - cbn [merge_all].
    rewrite (merge_pair_result _ _ _ _ _ _ _ _ legacy_1990_2019
               {| columns := columns legacy_1990_2019;
                  values := take 28 (values legacy_1990_2019) |} current_2018_2020
               (rounded_frame (concat windowed_1990_2017 current_2018_2020)));
      [reflexivity | by vm_compute..].
  - unfold merge_pair, read_csv.
    replace (_ !! path_join old_fold "Glomma_n.csv") with (@None DataFrame);
      [reflexivity | by vm_compute].
  - exact Hrun.
Defined.

(** ** C8: the sheets of the workbook *)

Lemma chars_app s1 s2 : chars (s1 +:+ s2) = chars s1 ++ chars s2.
Proof. induction s1 as [|c s1 IH]; simpl; [done | by rewrite IH]. Qed.

Lemma chars_inj s1 s2 : chars s1 = chars s2 → s1 = s2.
Proof.
  revert s2. induction s1 as [|c s1 IH]; intros [|c' s2]; simpl; try done.
  intros [= -> H]. f_equal. by apply IH.
Qed.

Lemma chars_length s : length (chars s) = String.length s.
Proof. induction s as [|c s IH]; simpl; [done | by rewrite IH]. Qed.

Lemma append_suffix_inj r1 r2 s1 s2 :
  String.length s1 = String.length s2 → r1 +:+ s1 = r2 +:+ s2 → r1 = r2 ∧ s1 = s2.
Proof.
  intros Hlen Heq. apply (f_equal chars) in Heq.
  rewrite !chars_app in Heq.
  apply app_inj_2 in Heq as [H1 H2].
  - split; by apply chars_inj.
  - by rewrite !chars_length.
Qed.

Lemma sheet_name_p region : sheet_name region "p" = region +:+ " (P)".
Proof. done. Qed.

Lemma sheet_name_n region : sheet_name region "n" = region +:+ " (N)".
Proof. done. Qed.

Lemma elem_of_pars par : par ∈ pars ↔ par = "p" ∨ par = "n".
Proof.
  unfold pars. rewrite !elem_of_cons, elem_of_nil. tauto.
Qed.

Lemma sheet_name_inj r1 p1 r2 p2 :
  p1 ∈ pars → p2 ∈ pars → sheet_name r1 p1 = sheet_name r2 p2 → r1 = r2 ∧ p1 = p2.
Proof.
  intros [->| ->]%elem_of_pars [->| ->]%elem_of_pars;
    rewrite ?sheet_name_p, ?sheet_name_n;
    intros [-> Hs]%append_suffix_inj; done.
Qed.

Lemma sheet_name_not_default region par :
  par ∈ pars → sheet_name region par ≠ default_title.
Proof.
  intros [->| ->]%elem_of_pars; rewrite ?sheet_name_p, ?sheet_name_n;
    intros H%(f_equal chars); rewrite chars_app in H;
    apply (f_equal last) in H; cbn [chars default_title] in H;
    rewrite (last_app_cons (chars region)) in H; by vm_compute in H.
Qed.

Lemma elem_of_region_titles t region_list :
  t ∈ region_titles region_list
  ↔ ∃ region par, region ∈ region_list ∧ par ∈ pars ∧ t = sheet_name region par.
Proof.
  unfold region_titles. rewrite list_elem_of_bind. split.
  - intros (region & Ht & Hr). rewrite !elem_of_cons, elem_of_nil in Ht.
    destruct Ht as [->|[->|[]]].
    + exists region, "p". split_and!; [done | apply elem_of_pars; auto | done].
    + exists region, "n". split_and!; [done | apply elem_of_pars; auto | done].
  - intros (region & par & Hr & [->| ->]%elem_of_pars & ->); exists region;
      (split; [|done]); rewrite ?sheet_name_p, ?sheet_name_n;
      rewrite !elem_of_cons; auto.
Qed.

Lemma region_titles_not_default t region_list :
  t ∈ region_titles region_list → t ≠ default_title.
Proof.
  intros (region & par & _ & Hpar & ->)%elem_of_region_titles.
  by apply sheet_name_not_default.
Qed.

Lemma region_titles_length region_list :
  length (region_titles region_list) = (2 * length region_list)%nat.
Proof.
  unfold region_titles. induction region_list as [|r rs IH]; [done|].
  rewrite bind_cons, length_app, IH. simpl. lia.
Qed.

Lemma titles_kept_sub same_title l1 l2 :
  (∀ t, t ∈ l1 → t ∈ l2) → titles_kept same_title l2 → titles_kept same_title l1.
Proof.
  intros Hsub [Hok Hapart]. split.
  - apply Forall_forall. intros t Ht. rewrite Forall_forall in Hok. by apply Hok, Hsub.
  - intros t u Ht Hu. apply Hapart.
    + apply elem_of_cons in Ht as [->|Ht]; [left | right; by apply Hsub].
    + apply elem_of_cons in Hu as [->|Hu]; [left | right; by apply Hsub].
Qed.

(** The condition on the titles, in a form that can be computed. *)
Lemma titles_kept_checked same_title titles :
  Forall (λ t, title_ok t = true) titles →
  Forall (λ t, Forall (λ u, t ≠ u → same_title t u = false) (default_title :: titles))
    (default_title :: titles) →
  titles_kept same_title titles.
Proof.
  intros Hok Hall. split; [done|]. intros t u Ht Hu.
  rewrite Forall_forall in Hall. specialize (Hall t Ht).
  rewrite Forall_forall in Hall. by apply Hall.
Qed.

Lemma for_each_app {S A} (body : S → A → S * option error) l1 l2 s :
  for_each body (l1 ++ l2) s =
    match for_each body l1 s with
    | (s', None) => for_each body l2 s'
    | stopped => stopped
    end.
Proof.
  revert s. induction l1 as [|x l1 IH]; intros s; [done|].
  cbn [app for_each]. destruct (body s x) as [s1 [e|]]; [done | apply IH].
Qed.

Section export_facts.
Variable same_title : string → string → bool.
Variable next_title : list string → string → string.
Variables (data_dir : string) (fs : gmap string DataFrame).

Lemma unused_title_free taken value :
  (∀ t, t ∈ taken → same_title value t = false) →
  unused_title same_title next_title taken value = value.
Proof.
  intros Hfree. unfold unused_title.
  destruct (existsb (same_title value) taken) eqn:He; [|done].
  apply existsb_exists in He as (t & Ht%list_elem_of_In & Hs).
  by rewrite (Hfree t Ht) in Hs.
Qed.

(** The titles of the run: the engine keeps them, none is the default
    title. *)
Variable kept : list string.
Hypothesis Hkept : titles_kept same_title kept.
Hypothesis Hnames : ∀ t, t ∈ kept → t ≠ default_title.

Lemma to_excel_fresh writer name index df :
  name ∈ kept →
  (∀ t, t ∈ title <$> writer → t ∈ kept) →
  name ∉ title <$> writer →
  to_excel same_title next_title writer name index df
  = (writer ++ [ {| title := name; grid := frame_cells index df |} ], None).
Proof.
  intros Hname Hsub Hfresh. destruct Hkept as [Hok Hapart].
  unfold to_excel. rewrite decide_False by done. unfold create_sheet.
  rewrite Forall_forall in Hok. rewrite (Hok name Hname).
  assert (unused_title same_title next_title (title <$> writer) default_title
          = default_title) as ->.
  { apply unused_title_free. intros t Ht. apply Hapart; [left | right; by apply Hsub |].
    intros Heq. by apply (Hnames t); [apply Hsub|]. }
  rewrite decide_False by (by apply Hnames).
  rewrite unused_title_free; [done|].
  intros t [Ht|Ht]%elem_of_app.
  - apply Hapart; [by right | right; by apply Hsub | congruence].
  - apply list_elem_of_singleton in Ht as ->.
    apply Hapart; [by right | left | by apply Hnames].
Qed.

Lemma export_table_fresh region par df writer :
  fs !! path_join data_dir (csv_name region par) = Some df →
  sheet_name region par ∈ kept →
  (∀ t, t ∈ title <$> writer → t ∈ kept) →
  sheet_name region par ∉ title <$> writer →
  export_table same_title next_title data_dir fs region writer par
  = (writer ++ [sheet_of region par df], None).
Proof.
  intros Hdf Hname Hsub Hfresh. unfold export_table, read_csv. rewrite Hdf.
  by rewrite to_excel_fresh.
Qed.

Lemma export_region_fresh region dfp dfn writer :
  fs !! path_join data_dir (csv_name region "p") = Some dfp →
  fs !! path_join data_dir (csv_name region "n") = Some dfn →
  (∀ par, par ∈ pars → sheet_name region par ∈ kept) →
  (∀ t, t ∈ title <$> writer → t ∈ kept) →
  (∀ par, par ∈ pars → sheet_name region par ∉ title <$> writer) →
  export_region same_title next_title data_dir fs pars writer region
  = (writer ++ [sheet_of region "p" dfp; sheet_of region "n" dfn], None).
Proof.
  intros Hp Hn Hnames' Hsub Hfresh.
  assert ("p" ∈ pars ∧ "n" ∈ pars) as [Hpp Hpn] by (split; apply elem_of_pars; auto).
  unfold export_region, pars. cbn [for_each].
  rewrite (export_table_fresh _ _ dfp) by auto.
  rewrite (export_table_fresh _ _ dfn); [by rewrite <- app_assoc | done | auto | |].
  - intros t. rewrite fmap_app, elem_of_app. intros [Ht|Ht]; [by apply Hsub|].
    simpl in Ht. apply list_elem_of_singleton in Ht as ->. auto.
  - rewrite fmap_app, not_elem_of_app. split; [auto|].
    simpl. rewrite list_elem_of_singleton.
    intros [_ ?]%sheet_name_inj; done.
Qed.

Lemma export_regions_fresh region_list writer :
  NoDup region_list →
  (∀ region par, region ∈ region_list → par ∈ pars →
     is_Some (fs !! path_join data_dir (csv_name region par))) →
  (∀ region par, region ∈ region_list → par ∈ pars → sheet_name region par ∈ kept) →
  (∀ t, t ∈ title <$> writer → t ∈ kept) →
  (∀ region par, region ∈ region_list → par ∈ pars →
     sheet_name region par ∉ title <$> writer) →
  ∃ sheets,
    for_each (export_region same_title next_title data_dir fs pars) region_list writer
    = (writer ++ sheets, None)
    ∧ title <$> sheets = region_titles region_list
    ∧ Forall (λ ws, ∃ region par df,
        region ∈ region_list ∧ par ∈ pars
        ∧ fs !! path_join data_dir (csv_name region par) = Some df
        ∧ ws = sheet_of region par df) sheets.
Proof.
  intros Hnd. revert writer.
  induction Hnd as [|region rs Hnotin Hnd IH]; intros writer Hfiles Hnames' Hsub Hfresh.
  - exists []. by rewrite app_nil_r.
  - assert ("p" ∈ pars ∧ "n" ∈ pars) as [Hpp Hpn] by (split; apply elem_of_pars; auto).
    destruct (Hfiles region "p") as [dfp Hp]; [left | done |].
    destruct (Hfiles region "n") as [dfn Hn]; [left | done |].
    cbn [for_each].
    rewrite (export_region_fresh region dfp dfn);
      [|done|done|intros par Hpar; apply Hnames'; [left|done]|done
       |intros par Hpar; apply Hfresh; [left|done]].
    destruct (IH (writer ++ [sheet_of region "p" dfp; sheet_of region "n" dfn]))
      as (sheets & Hrun & Htitles & Hsheets).
    + intros r par Hr Hpar. apply Hfiles; [by right | done].
    + intros r par Hr Hpar. apply Hnames'; [by right | done].
    + intros t. rewrite fmap_app, elem_of_app. intros [Ht|Ht]; [by apply Hsub|].
      simpl in Ht. rewrite !elem_of_cons, elem_of_nil in Ht.
      destruct Ht as [->|[->|[]]]; apply Hnames'; by try left.
    + intros r par Hr Hpar. rewrite fmap_app, not_elem_of_app. split.
      * apply Hfresh; [by right | done].
      * simpl. rewrite !not_elem_of_cons. split_and!; [| |apply not_elem_of_nil].
        -- intros [-> _]%sheet_name_inj; done.
        -- intros [-> _]%sheet_name_inj; done.
    + exists ([sheet_of region "p" dfp; sheet_of region "n" dfn] ++ sheets).
      split_and!.
      * by rewrite Hrun, <- app_assoc.
      * rewrite fmap_app, Htitles. reflexivity.
      * apply Forall_app. split.
        -- repeat constructor.
           ++ exists region, "p", dfp. split_and!; [left|done..].
           ++ exists region, "n", dfn. split_and!; [left|done..].
        -- eapply Forall_impl; [exact Hsheets|].
           intros ws (r & par & df & Hr & Hpar & Hdf & ->).
           exists r, par, df. split_and!; [by right|done..].
Qed.
End export_facts.

(** The regions of a list, written from an empty writer. *)
Lemma export_regions_from_empty same_title next_title data_dir
    (fs : gmap string DataFrame) region_list :
  NoDup region_list →
  titles_kept same_title (region_titles region_list) →
  (∀ region par, region ∈ region_list → par ∈ pars →
     is_Some (fs !! path_join data_dir (csv_name region par))) →
  ∃ sheets,
    for_each (export_region same_title next_title data_dir fs pars) region_list []
    = (sheets, None)
    ∧ title <$> sheets = region_titles region_list
    ∧ Forall (λ ws, ∃ region par df,
        region ∈ region_list ∧ par ∈ pars
        ∧ fs !! path_join data_dir (csv_name region par) = Some df
        ∧ ws = sheet_of region par df) sheets.
Proof.
  intros Hnd Hkept Hfiles.
  apply (export_regions_fresh same_title next_title data_dir fs
           (region_titles region_list) Hkept); try done.
  - intros t. apply region_titles_not_default.
  - intros region par Hr Hpar. apply elem_of_region_titles. by exists region, par.
  - intros t Ht. by apply elem_of_nil in Ht.
  - intros region par _ _. apply not_elem_of_nil.
Qed.

(** Against C8 as it is stated.  For the empty list of regions there is no
    pair of a region and a parameter, and the export does not give a workbook
    without sheets: the writer cannot save, and the export ends with
    IndexError.  For the regions Glomma and Vest/Viken, with their four
    tables in the data folder, the engine refuses the title of the third
    sheet: the export ends with ValueError, and the workbook saved has no
    sheet of that title. *)
Lemma export_without_its_sheets :
  export_tables same_title_ascii (λ _ value, value) data_fold store_glomma_agder [] pars
  = (None, Some IndexError)
  ∧ (∀ par, par ∈ pars →
       is_Some (store_vest_viken !! path_join data_fold (csv_name "Vest/Viken" par)))
  ∧ ∃ wb,
      export_tables same_title_ascii (λ _ value, value) data_fold store_vest_viken
        ["Glomma"; "Vest/Viken"] pars
      = (Some wb, Some ValueError)
      ∧ "Vest/Viken (P)" ∉ title <$> wb.
Proof.
  split_and!; [reflexivity | |].
  - intros par [->| ->]%elem_of_pars; eexists; vm_compute; reflexivity.
  - eexists. split; [vm_compute; reflexivity | compute_done].
Qed.

(** C8 (as the code has it).  For a list of distinct regions that is not
    empty, whose sheet titles the engine keeps (it accepts each, and no two
    are equal up to case), and whose tables for "p" and "n" are all in the
    data folder, the export ends without exception and the workbook saved has
    exactly two sheets per region, in the order of the region list with "p"
    before "n" inside a region, titled with the region and the capital letter
    of the parameter in brackets; every sheet holds the labels and the rows
    of the table of its region and parameter, without an index column.  For
    the regions Glomma and Agder these are the four sheets Glomma (P),
    Glomma (N), Agder (P), Agder (N). *)
Theorem export_sheet_order same_title next_title data_dir (fs : gmap string DataFrame)
    region_list :
  region_list ≠ [] →
  NoDup region_list →
  titles_kept same_title
    (region_list ≫= (λ region, [region +:+ " (P)"; region +:+ " (N)"])) →
  (∀ region par, region ∈ region_list → par ∈ pars →
     is_Some (fs !! path_join data_dir (csv_name region par))) →
  ∃ wb,
    export_tables same_title next_title data_dir fs region_list pars = (Some wb, None)
    ∧ title <$> wb = region_list ≫= (λ region, [region +:+ " (P)"; region +:+ " (N)"])
    ∧ length wb = (2 * length region_list)%nat
    ∧ Forall (λ ws, ∃ region par df,
        region ∈ region_list ∧ par ∈ pars
        ∧ fs !! path_join data_dir (csv_name region par) = Some df
        ∧ title ws = region +:+ " (" +:+ capitalize par +:+ ")"
        ∧ grid ws = (XlText <$> columns df)
                      :: ((λ row : list cell, XlNumber <$> row) <$> values df)) wb.
Proof.
  intros Hne Hnd Hkept Hfiles.
  destruct (export_regions_from_empty same_title next_title data_dir fs region_list
              Hnd Hkept Hfiles) as (sheets & Hrun & Htitles & Hsheets).
  assert (length sheets = (2 * length region_list)%nat) as Hlen.
  { by rewrite <- (length_fmap title), Htitles, region_titles_length. }
  exists sheets. split_and!; [| done | done |].
  - unfold export_tables. rewrite Hrun. unfold save. cbn [fst snd].
    destruct sheets as [|ws sheets]; [|done].
    destruct region_list; [done | simpl in Hlen; lia].
  - eapply Forall_impl; [exact Hsheets|].
    intros ws (r & par & df & Hr & Hpar & Hdf & ->).
    by exists r, par, df.
Qed.

Lemma export_glomma_agder :
  ∃ wb,
    export_tables same_title_ascii (λ _ value, value) data_fold store_glomma_agder
      ["Glomma"; "Agder"] ["p"; "n"] = (Some wb, None)
    ∧ title <$> wb = ["Glomma (P)"; "Glomma (N)"; "Agder (P)"; "Agder (N)"]
    ∧ length wb = 4%nat.
Proof.
  destruct (export_sheet_order same_title_ascii (λ _ value, value) data_fold
              store_glomma_agder ["Glomma"; "Agder"])
    as (wb & Hrun & Htitles & Hlen & _).
  { done. }
  { compute_done. }
  { apply titles_kept_checked; compute_done. }
  { intros region par Hr Hpar.
    repeat (apply elem_of_cons in Hr as [->|Hr]);
      repeat (apply elem_of_cons in Hpar as [->|Hpar]);
      try (by apply elem_of_nil in Hr); try (by apply elem_of_nil in Hpar);
      eexists; vm_compute; reflexivity. }
  exists wb. split_and!; [exact Hrun | exact Htitles | exact Hlen].
Defined.

(** ** The two notebooks as they are written *)

(** The file names of the merge are those of the export: one per region and
    parameter, in the order of the report. *)
Lemma fname_dict_covers_regions :
  fname_dict.*1 = regions ≫= (λ region, csv_name region <$> pars).
Proof. by vm_compute. Qed.

Lemma regions_distinct : NoDup regions.
Proof. compute_done. Qed.

(** No output path of the merge is an input path of the merge. *)
Lemma outputs_apart_from_inputs :
  Forall (λ d, Forall (λ entry,
            path_join merge_fold d.1 ≠ path_join old_fold entry.2
            ∧ path_join merge_fold d.1 ≠ path_join new_fold entry.1) fname_dict)
         fname_dict.
Proof. compute_done. Qed.

(** So in the notebook an entry reads what was in its two folders before the
    run, whatever entries were merged before it. *)
Lemma notebook_inputs_untouched done outs entry (fs : gmap string DataFrame) :
  done ⊆ fname_dict → entry ∈ fname_dict →
  written merge_fold done outs fs !! path_join old_fold entry.2
  = fs !! path_join old_fold entry.2
  ∧ written merge_fold done outs fs !! path_join new_fold entry.1
    = fs !! path_join new_fold entry.1.
Proof.
  intros Hdone Hentry.
  pose proof outputs_apart_from_inputs as Hapart.
  rewrite Forall_forall in Hapart.
  split; apply written_lookup_other; intros d Hd%Hdone Heq;
    specialize (Hapart d Hd); rewrite Forall_forall in Hapart;
    destruct (Hapart entry Hentry) as [H1 H2]; congruence.
Qed.

(** On an empty folder tree the merge stops at the legacy file of the first
    entry; the export stops at the first table, with a writer that has no
    sheet to save. *)
Example merge_on_empty_tree :
  merge_old_new_results ∅
  = (∅, Some (FileNotFoundError "../report_2020/jose_data/Hele_kysten_p.csv")).
Proof. by vm_compute. Qed.

Example export_on_empty_tree same_title next_title :
  tables_to_excel same_title next_title ∅ = (None, Some IndexError).
Proof. reflexivity. Qed.

Example xl_path_2022 : xl_path = "../report_2022/report_2022_data_tables.xlsx".
Proof. by vm_compute. Qed.

(** * Further properties of the two notebooks *)

(** ** The rename and the window *)

(** X1.  Renaming the legacy columns twice is renaming them once; the rename
    keeps the number of columns, and no column of a renamed table still has
    one of the two legacy labels. *)
Theorem rename_legacy_idempotent df :
  rename legacy_names (rename legacy_names df) = rename legacy_names df
  ∧ length (columns (rename legacy_names df)) = length (columns df)
  ∧ ("Befolkning" ∉ columns (rename legacy_names df))
  ∧ ("Bakgrun" ∉ columns (rename legacy_names df)).
Proof.
  split_and!.
  - unfold rename. cbn [columns values]. f_equal.
    rewrite <- list_fmap_compose. apply list_fmap_ext. intros _ c _. simpl.
    rewrite !rename_label_legacy. repeat case_decide; simplify_eq; done.
  - simpl. by rewrite length_fmap.
  - simpl. intros (c & Hc & _)%list_elem_of_fmap.
    rewrite rename_label_legacy in Hc. repeat case_decide; simplify_eq.
  - simpl. intros (c & Hc & _)%list_elem_of_fmap.
    rewrite rename_label_legacy in Hc. repeat case_decide; simplify_eq.
Qed.

(** X2.  The window step and the rename can be done in either order: the
    rename does not touch the year column, so cutting the renamed table to
    the window gives the renamed cut table, and fails when the cut fails. *)
Theorem window_commutes_with_rename lo hi df :
  window lo hi (rename legacy_names df)
  = (w ← window lo hi df; Ok (rename legacy_names w)).
Proof.
  unfold window, query. cbn [columns values rename].
  rewrite get_loc_rename_year.
  by destruct (get_loc year_label (columns df)).
Qed.

Lemma filter_filter_bool {A} (p q : A → bool) l :
  List.filter p (List.filter q l) = List.filter (λ x, q x && p x) l.
Proof.
  induction l as [|x l IH]; [done|]. cbn [List.filter].
  destruct (q x); cbn [List.filter andb]; [destruct (p x)|]; by rewrite IH.
Qed.

Lemma in_window_both lo1 hi1 lo2 hi2 c :
  in_window (Z.max lo1 lo2) (Z.min hi1 hi2) c
  ↔ in_window lo1 hi1 c ∧ in_window lo2 hi2 c.
Proof.
  destruct c as [z|q|]; simpl; [lia| |tauto].
  assert ((inject_Z (Z.max lo1 lo2) <= q)%Q
          ↔ (inject_Z lo1 <= q)%Q ∧ (inject_Z lo2 <= q)%Q) as ->.
  { destruct (Z.max_spec lo1 lo2) as [[Hlt ->]|[Hle ->]]; split.
    - intros H. split; [|done]. eapply Qle_trans; [|exact H].
      rewrite <- Zle_Qle. lia.
    - tauto.
    - intros H. split; [done|]. eapply Qle_trans; [|exact H].
      rewrite <- Zle_Qle. lia.
    - tauto. }
  assert ((q <= inject_Z (Z.min hi1 hi2))%Q
          ↔ (q <= inject_Z hi1)%Q ∧ (q <= inject_Z hi2)%Q) as ->.
  { destruct (Z.min_spec hi1 hi2) as [[Hlt ->]|[Hle ->]]; split.
    - intros H. split; [done|]. eapply Qle_trans; [exact H|].
      rewrite <- Zle_Qle. lia.
    - tauto.
    - intros H. split; [|done]. eapply Qle_trans; [exact H|].
      rewrite <- Zle_Qle. lia.
    - tauto. }
  tauto.
Qed.

Lemma between_both lo1 hi1 lo2 hi2 c :
  between lo1 hi1 c && between lo2 hi2 c
  = between (Z.max lo1 lo2) (Z.min hi1 hi2) c.
Proof.
  apply eq_true_iff_eq.
  rewrite andb_true_iff, !between_spec. symmetry. apply in_window_both.
Qed.

Lemma in_window_empty lo hi c : hi < lo → ¬ in_window lo hi c.
Proof.
  intros Hlt. destruct c as [z|q|]; simpl; [lia| |tauto].
  intros [H1 H2]. pose proof (Qle_trans _ _ _ H1 H2) as H.
  rewrite <- Zle_Qle in H. lia.
Qed.

(** X3.  Cutting a cut table to a second window is cutting the table to the
    years common to both windows; cutting it to the same window again
    changes nothing; a window whose end lies before its start keeps no
    row. *)
Theorem window_of_window lo1 hi1 lo2 hi2 df w :
  window lo1 hi1 df = Ok w →
  window lo2 hi2 w = window (Z.max lo1 lo2) (Z.min hi1 hi2) df
  ∧ window lo1 hi1 w = Ok w
  ∧ (hi1 < lo1 → values w = []).
Proof.
  intros (i & Hi & ->)%window_Ok.
  assert (∀ lo hi,
            window lo hi
              {| columns := columns df;
                 values := List.filter (λ row, between lo1 hi1 (iloc row i)) (values df) |}
            = window (Z.max lo1 lo) (Z.min hi1 hi) df) as Hboth.
  { intros lo hi. unfold window, query. cbn [columns values]. rewrite Hi.
    do 2 f_equal. rewrite filter_filter_bool.
    apply List.filter_ext. intros row. apply between_both. }
  split_and!.
  - apply Hboth.
  - rewrite Hboth, Z.max_id, Z.min_id. unfold window, query. by rewrite Hi.
  - intros Hlt. cbn [values]. apply filter_none, Forall_forall. intros row _.
    destruct (between lo1 hi1 (iloc row i)) eqn:Hb; [|done].
    apply between_spec in Hb. by apply in_window_empty in Hb.
Qed.

Lemma window_of_window_2000_2017 :
  window 2000 2030
    {| columns := columns legacy_1990_2019;
       values := take 28 (values legacy_1990_2019) |}
  = window 2000 2017 legacy_1990_2019.
Proof.
  destruct (window_of_window 1990 2017 2000 2030 legacy_1990_2019
              {| columns := columns legacy_1990_2019;
                 values := take 28 (values legacy_1990_2019) |})
    as (Hboth & _ & _).
  { by vm_compute. }
  exact Hboth.
Defined.

(** ** Failures of the loop body *)

(** X5.  A legacy file without the year column makes the body fail in the
    window step with UndefinedVariableError on the year label, before the
    current file is looked at (so also when that file is absent); the run
    stops at this entry and writes nothing for it. *)
Theorem legacy_without_year_column lo hi od nd ot (fs : gmap string DataFrame)
    new_fname old_fname legacy :
  fs !! path_join od old_fname = Some legacy →
  year_label ∉ columns legacy →
  merge_pair lo hi od nd ot fs (new_fname, old_fname)
  = Err (UndefinedVariableError year_label)
  ∧ ∀ rest, merge_all lo hi od nd ot ((new_fname, old_fname) :: rest) fs
            = (fs, Some (UndefinedVariableError year_label)).
Proof.
  intros Hold Hyear%get_loc_None.
  assert (merge_pair lo hi od nd ot fs (new_fname, old_fname)
          = Err (UndefinedVariableError year_label)) as Hpair.
  { unfold merge_pair, read_csv, window, query. rewrite Hold. simpl.
    by rewrite Hyear. }
  split; [done|]. intros rest. cbn [merge_all]. by rewrite Hpair.
Qed.

Lemma troms_without_year_column :
  merge_all old_st old_end old_fold new_fold merge_fold
    [("Troms_p.csv", "Troms_p.csv"); ("Troms_n.csv", "Troms_n.csv")]
    store_without_year
  = (store_without_year, Some (UndefinedVariableError "År")).
Proof.
  destruct (legacy_without_year_column old_st old_end old_fold new_fold merge_fold
              store_without_year "Troms_p.csv" "Troms_p.csv" legacy_without_year)
    as [_ Hall].
  { by vm_compute. }
  { compute_done. }
  apply Hall.
Defined.

(** ** When the merge succeeds *)

Lemma complete_concat_l a b :
  well_formed a → complete (concat a b) → complete a.
Proof.
  intros [Hnd Hlen] [Ha _]%concat_complete_iff.
  unfold complete. apply Forall_forall. intros row Hrow.
  rewrite Forall_forall in Hlen. specialize (Hlen row Hrow).
  apply Forall_forall. intros x [i Hi]%list_elem_of_lookup_1.
  destruct (lookup_lt_is_Some_2 (columns a) i) as [c Hc].
  { rewrite <- Hlen. by eapply lookup_lt_Some. }
  specialize (Ha row c Hrow). unfold at_label, iloc in Ha.
  rewrite (get_loc_NoDup _ _ _ Hnd Hc), Hi in Ha. simpl in Ha.
  apply Ha. left. by eapply list_elem_of_lookup_2.
Qed.

Lemma complete_concat_r a b :
  well_formed b → complete (concat a b) → complete b.
Proof.
  intros [Hnd Hlen] [_ Hb]%concat_complete_iff.
  unfold complete. apply Forall_forall. intros row Hrow.
  rewrite Forall_forall in Hlen. specialize (Hlen row Hrow).
  apply Forall_forall. intros x [i Hi]%list_elem_of_lookup_1.
  destruct (lookup_lt_is_Some_2 (columns b) i) as [c Hc].
  { rewrite <- Hlen. by eapply lookup_lt_Some. }
  specialize (Hb row c Hrow). unfold at_label, iloc in Hb.
  rewrite (get_loc_NoDup _ _ _ Hnd Hc), Hi in Hb. simpl in Hb.
  apply Hb. right. by eapply list_elem_of_lookup_2.
Qed.

(** X4.  For two well-formed tables with the same set of columns, the
    concatenation, rounding and conversion go through exactly when neither
    table has a missing cell. *)
Theorem merge_succeeds_iff_complete a b :
  well_formed a → well_formed b → column_set a = column_set b →
  is_ok (merge_frames a b) = true ↔ complete a ∧ complete b.
Proof.
  intros Ha Hb Hset.
  unfold merge_frames. rewrite is_ok_normalize. split.
  - intros Hc. split; [by eapply complete_concat_l | by eapply complete_concat_r].
  - intros [Hca Hcb]. by apply concat_complete.
Qed.

Lemma merge_succeeds_on_scenario :
  is_ok (merge_frames windowed_1990_2017 current_2018_2020) = true.
Proof.
  apply (merge_succeeds_iff_complete windowed_1990_2017 current_2018_2020).
  - unfold well_formed. split; compute_done.
  - unfold well_formed. split; compute_done.
  - compute_done.
  - unfold complete. split; compute_done.
Defined.

(** ** The years of the merged table *)

Lemma merged_year_column w current out :
  merge_frames (rename legacy_names w) current = Ok out →
  column year_label out
  = rounded <$> (column year_label w ++ column year_label current).
Proof.
  unfold merge_frames. intros [_ ->]%normalize_Ok.
  by rewrite column_rounded_frame, column_concat, column_rename_year.
Qed.

Lemma column_window lo hi df w :
  window lo hi df = Ok w →
  column year_label w = List.filter (between lo hi) (column year_label df).
Proof.
  intros (i & Hi & ->)%window_Ok. unfold column. cbn [columns values].
  rewrite filter_fmap. f_equal.
  apply List.filter_ext. intros row. by rewrite (at_label_iloc _ _ _ _ Hi).
Qed.

Lemma rint_mono q1 q2 : (q1 <= q2)%Q → rint q1 ≤ rint q2.
Proof.
  unfold Qle. intros Hle.
  pose proof (rint_half q1) as Hh1. pose proof (rint_half q2) as Hh2.
  pose proof (rint_tie_even q1) as Ht1. pose proof (rint_tie_even q2) as Ht2.
  destruct (Z_le_gt_dec (rint q1) (rint q2)) as [|Hgt]; [done|]. exfalso.
  set (r1 := rint q1) in *. set (r2 := rint q2) in *.
  set (n1 := Qnum q1) in *. set (n2 := Qnum q2) in *.
  assert (0 < Z.pos (Qden q1)) as Hd1 by lia.
  assert (0 < Z.pos (Qden q2)) as Hd2 by lia.
  set (d1 := Z.pos (Qden q1)) in *. set (d2 := Z.pos (Qden q2)) in *.
  assert ((2 * r1 - 1) * d1 ≤ 2 * n1) as Hlow by lia.
  assert (2 * n2 ≤ (2 * r2 + 1) * d2) as Hup by lia.
  assert ((2 * r2 + 1) * d1 ≤ (2 * r1 - 1) * d1) as Hmid by nia.
  assert ((2 * r2 + 1) * d1 * d2 ≤ 2 * n1 * d2) as H1 by nia.
  assert (2 * n2 * d1 ≤ (2 * r2 + 1) * d2 * d1) as H2 by nia.
  assert (2 * n1 * d2 = (2 * r2 + 1) * d1 * d2) as E1 by nia.
  assert (2 * n2 * d1 = (2 * r2 + 1) * d2 * d1) as E2 by nia.
  assert (2 * n1 = (2 * r2 + 1) * d1) as E3 by nia.
  assert (2 * n2 = (2 * r2 + 1) * d2) as E4 by nia.
  assert (r1 = r2 + 1) as E5 by nia.
  assert (Z.even r1 = true) as Hev1 by (apply Ht1; nia).
  assert (Z.even r2 = true) as Hev2 by (apply Ht2; nia).
  rewrite E5, Z.even_add, Hev2 in Hev1. done.
Qed.

Lemma rounded_mono a b :
  fits_int64 a → fits_int64 b → cell_le a b → cell_le (rounded a) (rounded b).
Proof.
  destruct a as [x|x|], b as [y|y|]; simpl; try done.
  - intros _ Hy H%rint_mono. rewrite to_int64_in_range by done.
    by rewrite rint_inject_Z in H.
  - intros Hx _ H%rint_mono. rewrite to_int64_in_range by done.
    by rewrite rint_inject_Z in H.
  - intros Hx Hy H%rint_mono. by rewrite !to_int64_in_range.
Qed.

Lemma ascending_rounded_fits l :
  Forall fits_int64 l → ascending l → ascending (rounded <$> l).
Proof.
  unfold ascending. intros Hf Hs. induction Hs as [|c l Hs IH Hall]; [constructor|].
  apply Forall_cons in Hf as [Hc Hl]. rewrite fmap_cons.
  constructor; [by apply IH|].
  rewrite Forall_fmap. rewrite Forall_forall in Hall. rewrite Forall_forall in Hl.
  apply Forall_forall. intros c' Hc'. simpl.
  apply rounded_mono; [done | by apply Hl | by apply Hall].
Qed.

Lemma ascending_filter p l : ascending l → ascending (List.filter p l).
Proof.
  unfold ascending. induction 1 as [|c l Hs IH Hall]; [constructor|].
  cbn [List.filter]. destruct (p c); [|done].
  constructor; [done|]. apply Forall_forall. intros c' [Hc' _]%elem_of_filter_bool.
  rewrite Forall_forall in Hall. by apply Hall.
Qed.

Lemma cell_le_through_bound lo hi a b :
  in_window lo hi a → cell_le (Int hi) b → cell_le a b.
Proof.
  destruct a as [x|x|], b as [y|y|]; simpl; try done.
  - lia.
  - intros [_ Hx] Hy. eapply Qle_trans; [|exact Hy]. rewrite <- Zle_Qle. lia.
  - intros [_ Hx] Hy. eapply Qle_trans; [exact Hx|]. by rewrite <- Zle_Qle.
  - intros [_ Hx] Hy. eapply Qle_trans; [exact Hx | exact Hy].
Qed.

(** A year beyond the range of [int64] does not keep its place in the
    order. *)
Example year_beyond_int64 :
  merge_frames (rename legacy_names {| columns := ["År"]; values := [] |})
    {| columns := ["År"];
       values := [[Int 2018]; [Float (10000000000000000000 # 1)]] |}
  = Ok {| columns := ["År"];
          values := [[Int 2018]; [Int (-9223372036854775808)]] |}.
Proof. by vm_compute. Qed.

(** X16.  When the legacy table and the current table are each in ascending
    order of the year, no current year lies before the end of the window, and
    the years lie in the range of [int64], the merged table is in ascending
    order of the year: the window keeps the order, the rows are not
    rearranged, and rounding keeps the order of two numbers. *)
Theorem ascending_years_stay_ascending lo hi legacy current w out :
  window lo hi legacy = Ok w →
  merge_frames (rename legacy_names w) current = Ok out →
  ascending (column year_label legacy) →
  ascending (column year_label current) →
  Forall (cell_le (Int hi)) (column year_label current) →
  Forall fits_int64 (column year_label legacy) →
  Forall fits_int64 (column year_label current) →
  ascending (column year_label out).
Proof.
  intros Hw Hm Hl Hc Hafter Hfl Hfc.
  rewrite (merged_year_column _ _ _ Hm), (column_window _ _ _ _ Hw).
  apply ascending_rounded_fits.
  - apply Forall_app. split; [|done].
    apply Forall_forall. intros c [Hin _]%elem_of_filter_bool.
    rewrite Forall_forall in Hfl. by apply Hfl.
  - apply StronglySorted_app_2; [|by apply ascending_filter|done].
    intros a b [_ Ha%between_spec]%elem_of_filter_bool Hb.
    rewrite Forall_forall in Hafter. eapply cell_le_through_bound; eauto.
Qed.

Lemma merged_scenario_stays_ascending :
  ∃ out,
    merge_frames windowed_1990_2017 current_2018_2020 = Ok out
    ∧ ascending (column year_label out).
Proof.
  pose (w := {| columns := columns legacy_1990_2019;
                values := take 28 (values legacy_1990_2019) |}).
  pose (out := rounded_frame (concat (rename legacy_names w) current_2018_2020)).
  exists out. split; [by vm_compute|].
  apply (ascending_years_stay_ascending 1990 2017 legacy_1990_2019 current_2018_2020
           w out).
  - by vm_compute.
  - by vm_compute.
  - unfold ascending. compute_done.
  - unfold ascending. compute_done.
  - compute_done.
  - apply Forall_forall. intros c Hc.
    repeat (apply elem_of_cons in Hc as [->|Hc]; [done|]).
    by apply elem_of_nil in Hc.
  - apply Forall_forall. intros c Hc.
    repeat (apply elem_of_cons in Hc as [->|Hc]; [done|]).
    by apply elem_of_nil in Hc.
Defined.

(** X7.  The merge does not look for years that the two tables share: a year
    of the legacy table inside the window that is also a year of the current
    table stands twice in the year column of the merged table, once from each
    table. *)
Theorem shared_year_is_merged_twice lo hi legacy current w out y :
  window lo hi legacy = Ok w →
  merge_frames (rename legacy_names w) current = Ok out →
  Int y ∈ column year_label legacy →
  lo ≤ y ≤ hi →
  Int y ∈ column year_label current →
  ∃ i j, (i < length (values w) ≤ j)%nat
         ∧ column year_label out !! i = Some (Int y)
         ∧ column year_label out !! j = Some (Int y).
Proof.
  intros Hw Hm Hl Hy Hc.
  assert (Int y ∈ column year_label w) as Hin.
  { rewrite (column_window _ _ _ _ Hw). apply elem_of_filter_bool. split; [done|].
    by apply between_spec. }
  assert (length (column year_label w) = length (values w)) as Hlen.
  { unfold column. by rewrite length_fmap. }
  apply list_elem_of_lookup_1 in Hin as [i Hi].
  apply list_elem_of_lookup_1 in Hc as [k Hk].
  pose proof (lookup_lt_Some _ _ _ Hi) as Hlt.
  exists i, (length (values w) + k)%nat.
  rewrite (merged_year_column _ _ _ Hm), !list_lookup_fmap.
  split_and!; [lia | lia | |].
  - by rewrite lookup_app_l, Hi.
  - rewrite lookup_app_r by lia.
    replace (length (values w) + k - length (column year_label w))%nat with k by lia.
    by rewrite Hk.
Qed.

Lemma year_2018_is_merged_twice :
  ∃ out i j,
    merge_frames (rename legacy_names legacy_1990_2019) current_2018_2020 = Ok out
    ∧ (i < j)%nat
    ∧ column year_label out !! i = Some (Int 2018)
    ∧ column year_label out !! j = Some (Int 2018).
Proof.
  pose (out := rounded_frame
                 (concat (rename legacy_names legacy_1990_2019) current_2018_2020)).
  destruct (shared_year_is_merged_twice 1990 2019 legacy_1990_2019 current_2018_2020
              legacy_1990_2019 out 2018)
    as (i & j & Hij & Hi & Hj).
  { by vm_compute. }
  { by vm_compute. }
  { compute_done. }
  { lia. }
  { compute_done. }
  exists out, i, j. split_and!; [by vm_compute | lia | done | done].
Defined.

Lemma filter_NoDup {A} (p : A → bool) l : NoDup l → NoDup (List.filter p l).
Proof. intros Hnd. eapply sublist_NoDup; [exact Hnd | apply filter_sublist]. Qed.

(** X8.  When the years of the legacy table are distinct integers, the years
    of the current table are distinct integers, and no current year lies in
    the window, every year stands once in the merged table. *)
Theorem disjoint_years_stay_distinct lo hi legacy current w out :
  window lo hi legacy = Ok w →
  merge_frames (rename legacy_names w) current = Ok out →
  NoDup (column year_label legacy) →
  NoDup (column year_label current) →
  Forall is_integer (column year_label legacy) →
  Forall is_integer (column year_label current) →
  Forall (λ c, ¬ in_window lo hi c) (column year_label current) →
  NoDup (column year_label out)
  ∧ column year_label out = column year_label w ++ column year_label current.
Proof.
  intros Hw Hm Hndl Hndc Hil Hic Hout.
  assert (column year_label out = column year_label w ++ column year_label current)
    as Hcol.
  { rewrite (merged_year_column _ _ _ Hm), (column_window _ _ _ _ Hw).
    rewrite <- (list_fmap_id (_ ++ _)) at 2.
    apply list_fmap_ext. intros _ c Hc%list_elem_of_lookup_2. simpl.
    apply rounded_integer. apply elem_of_app in Hc as [Hc|Hc].
    - apply elem_of_filter_bool in Hc as [Hc _].
      rewrite Forall_forall in Hil. by apply Hil.
    - rewrite Forall_forall in Hic. by apply Hic. }
  split; [|done]. rewrite Hcol, (column_window _ _ _ _ Hw).
  apply NoDup_app. split_and!; [by apply filter_NoDup | | done].
  intros c [_ Hc%between_spec]%elem_of_filter_bool Hcur.
  rewrite Forall_forall in Hout. by apply (Hout c).
Qed.

Lemma merged_scenario_years_distinct :
  ∃ out,
    merge_frames windowed_1990_2017 current_2018_2020 = Ok out
    ∧ NoDup (column year_label out).
Proof.
  pose (w := {| columns := columns legacy_1990_2019;
                values := take 28 (values legacy_1990_2019) |}).
  pose (out := rounded_frame (concat (rename legacy_names w) current_2018_2020)).
  exists out. split; [by vm_compute|].
  apply (disjoint_years_stay_distinct 1990 2017 legacy_1990_2019 current_2018_2020 w out).
  - by vm_compute.
  - by vm_compute.
  - compute_done.
  - compute_done.
  - apply Forall_forall. intros c Hc.
    repeat (apply elem_of_cons in Hc as [->|Hc]; [by eexists|]).
    by apply elem_of_nil in Hc.
  - apply Forall_forall. intros c Hc.
    repeat (apply elem_of_cons in Hc as [->|Hc]; [by eexists|]).
    by apply elem_of_nil in Hc.
  - apply Forall_forall. intros c Hc.
    repeat (apply elem_of_cons in Hc as [->|Hc]; [simpl; lia|]).
    by apply elem_of_nil in Hc.
Defined.

(** ** The files of a run *)

Lemma written_dom ot l outs (fs : gmap string DataFrame) :
  length outs = length l →
  dom (written ot l outs fs) = dom fs ∪ list_to_set (path_join ot <$> l.*1).
Proof.
  revert outs fs. induction l as [|d l IH]; intros [|out outs] fs Hlen; try done.
  - simpl. by rewrite union_empty_r_L.
  - injection Hlen as Hlen. rewrite written_cons, IH by done.
    unfold to_csv. rewrite dom_insert_L, !fmap_cons, list_to_set_cons.
    apply set_eq. intros x. rewrite !elem_of_union. tauto.
Qed.

(** X9.  After a run in which every entry went through, the files of the
    tree are those it had before together with one output path per entry:
    the run removes no file and creates no other file. *)
Theorem completed_run_files lo hi od nd ot entries (fs fs' : gmap string DataFrame) :
  merge_all lo hi od nd ot entries fs = (fs', None) →
  dom fs' = dom fs ∪ list_to_set (path_join ot <$> entries.*1).
Proof.
  intros (outs & Hlen & ->)%merge_all_written. by apply written_dom.
Qed.

Lemma completed_run_files_agder :
  dom (<[path_join merge_fold "Agder_n.csv" :=
           {| columns := ["År"; "Bakgrunn"; "Avløp"];
              values := [[Int 2018; Int 2; Int 1]] |}]> store_early_legacy)
  = dom store_early_legacy
    ∪ list_to_set (path_join merge_fold <$> [("Agder_n.csv", "Agder_n.csv")].*1).
Proof.
  apply (completed_run_files old_st old_end old_fold new_fold merge_fold
           [("Agder_n.csv", "Agder_n.csv")] store_early_legacy).
  cbn [merge_all].
  rewrite (merge_pair_result _ _ _ _ _ _ _ _ legacy_1985_1989
             {| columns := columns legacy_1985_1989; values := [] |} current_2018
             {| columns := ["År"; "Bakgrunn"; "Avløp"];
                values := [[Int 2018; Int 2; Int 1]] |});
    [reflexivity | by vm_compute..].
Defined.

Section rerun.
Variables (lo hi : Z) (od nd ot : string).

Lemma merge_pair_agree (fs g : gmap string DataFrame) new_fname old_fname :
  g !! path_join od old_fname = fs !! path_join od old_fname →
  g !! path_join nd new_fname = fs !! path_join nd new_fname →
  match merge_pair lo hi od nd ot fs (new_fname, old_fname) with
  | Ok fs1 =>
      ∃ out, fs1 = <[path_join ot new_fname := out]> fs
             ∧ merge_pair lo hi od nd ot g (new_fname, old_fname)
               = Ok (<[path_join ot new_fname := out]> g)
  | Err e => merge_pair lo hi od nd ot g (new_fname, old_fname) = Err e
  end.
Proof.
  intros Hold Hnew. unfold merge_pair, read_csv, to_csv. rewrite Hold, Hnew.
  destruct (fs !! path_join od old_fname) as [legacy|]; simpl; [|done].
  destruct (window lo hi legacy) as [w|]; simpl; [|done].
  destruct (fs !! path_join nd new_fname) as [current|]; simpl; [|done].
  destruct (merge_frames (rename legacy_names w) current) as [out|]; simpl; [|done].
  by exists out.
Qed.

Lemma written_lookup_agree l outs (m1 m2 : gmap string DataFrame) p :
  m1 !! p = m2 !! p → written ot l outs m1 !! p = written ot l outs m2 !! p.
Proof.
  revert outs m1 m2. induction l as [|d l IH]; intros [|out outs] m1 m2 Hp; try done.
  rewrite !written_cons. apply IH. unfold to_csv.
  rewrite !lookup_insert. by case_decide.
Qed.

Lemma written_lookup_key l outs (m1 m2 : gmap string DataFrame) p :
  length outs = length l → p ∈ path_join ot <$> l.*1 →
  written ot l outs m1 !! p = written ot l outs m2 !! p.
Proof.
  revert outs m1 m2. induction l as [|d l IH]; intros [|out outs] m1 m2 Hlen Hkey;
    try done.
  - by apply elem_of_nil in Hkey.
  - injection Hlen as Hlen. rewrite !written_cons.
    destruct (decide (p ∈ path_join ot <$> l.*1)) as [Hin|Hnotin].
    + by apply IH.
    + rewrite !fmap_cons in Hkey. apply elem_of_cons in Hkey as [->|?]; [|done].
      apply written_lookup_agree. unfold to_csv. by rewrite !lookup_insert_eq.
Qed.

Lemma written_idem l outs (fs : gmap string DataFrame) :
  length outs = length l →
  written ot l outs (written ot l outs fs) = written ot l outs fs.
Proof.
  intros Hlen. apply map_eq. intros p.
  destruct (decide (p ∈ path_join ot <$> l.*1)) as [Hkey|Hother].
  - by apply written_lookup_key.
  - apply written_lookup_other. intros d Hd Heq. apply Hother.
    rewrite Heq. apply list_elem_of_fmap. exists d.1. split; [done|].
    by apply list_elem_of_fmap_2.
Qed.
End rerun.

Lemma merge_all_agree lo hi od nd ot entries (fs g fs' : gmap string DataFrame) r :
  (∀ entry, entry ∈ entries →
     g !! path_join od entry.2 = fs !! path_join od entry.2
     ∧ g !! path_join nd entry.1 = fs !! path_join nd entry.1) →
  merge_all lo hi od nd ot entries fs = (fs', r) →
  ∃ passed outs,
    length outs = length passed
    ∧ passed ⊆ entries
    ∧ fs' = written ot passed outs fs
    ∧ merge_all lo hi od nd ot entries g = (written ot passed outs g, r).
Proof.
  revert fs g. induction entries as [|[nf of_] rest IH]; intros fs g Hagree.
  - intros [= <- <-]. by exists [], [].
  - cbn [merge_all].
    destruct (Hagree (nf, of_)) as [Hold Hnew]; [left|].
    pose proof (merge_pair_agree lo hi od nd ot fs g nf of_ Hold Hnew) as Hpair.
    destruct (merge_pair lo hi od nd ot fs (nf, of_)) as [fs1|e].
    + destruct Hpair as (out & -> & ->). intros Hrun.
      destruct (IH (<[path_join ot nf := out]> fs) (<[path_join ot nf := out]> g))
        as (passed & outs & Hlen & Hsub & -> & Hg); [|exact Hrun|].
      { intros entry Hentry. destruct (Hagree entry) as [H1 H2]; [by right|].
        rewrite !lookup_insert. split; by case_decide. }
      exists ((nf, of_) :: passed), (out :: outs). split_and!.
      * simpl. by rewrite Hlen.
      * intros d [->|Hd]%elem_of_cons; [left | right; by apply Hsub].
      * done.
      * done.
    + rewrite Hpair. intros [= <- <-]. exists [], []. split_and!; try done.
      intros d Hd. by apply elem_of_nil in Hd.
Qed.

(** X10.  When no output path of the entries is an input path of one of them
    (as with the three folders of the notebook), running the loop again on
    the tree a run has left gives the same tree and the same outcome: a
    second run reads the same inputs, writes the same tables over the first
    run's outputs, and stops where the first one stopped. *)
Theorem rerun_changes_nothing lo hi od nd ot entries (fs fs' : gmap string DataFrame) r :
  (∀ d entry, d ∈ entries → entry ∈ entries →
     path_join ot d.1 ≠ path_join od entry.2
     ∧ path_join ot d.1 ≠ path_join nd entry.1) →
  merge_all lo hi od nd ot entries fs = (fs', r) →
  merge_all lo hi od nd ot entries fs' = (fs', r).
Proof.
  intros Hapart Hrun.
  destruct (merge_all_agree lo hi od nd ot entries fs fs fs' r)
    as (passed & outs & Hlen & Hsub & Hfs' & _); [done | exact Hrun |].
  destruct (merge_all_agree lo hi od nd ot entries fs fs' fs' r)
    as (passed2 & outs2 & Hlen2 & Hsub2 & Hfs2 & Hagain); [|exact Hrun|].
  { intros entry Hentry. rewrite Hfs'.
    split; apply written_lookup_other; intros d Hd%Hsub Heq;
      destruct (Hapart d entry Hd Hentry) as [H1 H2]; congruence. }
  rewrite Hagain. f_equal. rewrite Hfs2 at 1. rewrite written_idem by done.
  by rewrite <- Hfs2.
Qed.

Lemma store_partial_run :
  merge_all old_st old_end old_fold new_fold merge_fold
    [("Glomma_p.csv", "Glomma_p.csv"); ("Glomma_n.csv", "Glomma_n.csv");
     ("Vest-Viken_p.csv", "Vest-Viken_p.csv")] store_partial
  = (<[path_join merge_fold "Glomma_p.csv" :=
         rounded_frame (concat windowed_1990_2017 current_2018_2020)]> store_partial,
     Some (FileNotFoundError (path_join old_fold "Glomma_n.csv"))).
Proof.
  cbn [merge_all].
  rewrite (merge_pair_result _ _ _ _ _ _ _ _ legacy_1990_2019
             {| columns := columns legacy_1990_2019;
                values := take 28 (values legacy_1990_2019) |} current_2018_2020
             (rounded_frame (concat windowed_1990_2017 current_2018_2020)));
    [|by vm_compute..].
  unfold merge_pair, read_csv.
  replace (_ !! path_join old_fold "Glomma_n.csv") with (@None DataFrame);
    [reflexivity | by vm_compute].
Qed.

Lemma rerun_on_store_partial :
  merge_all old_st old_end old_fold new_fold merge_fold
    [("Glomma_p.csv", "Glomma_p.csv"); ("Glomma_n.csv", "Glomma_n.csv");
     ("Vest-Viken_p.csv", "Vest-Viken_p.csv")]
    (<[path_join merge_fold "Glomma_p.csv" :=
         rounded_frame (concat windowed_1990_2017 current_2018_2020)]> store_partial)
  = (<[path_join merge_fold "Glomma_p.csv" :=
         rounded_frame (concat windowed_1990_2017 current_2018_2020)]> store_partial,
     Some (FileNotFoundError (path_join old_fold "Glomma_n.csv"))).
Proof.
  apply (rerun_changes_nothing _ _ _ _ _ _ store_partial).
  - intros d entry Hd Hentry.
    pose proof outputs_apart_from_inputs as Hapart.
    rewrite Forall_forall in Hapart.
    assert (∀ x, x ∈ [("Glomma_p.csv", "Glomma_p.csv"); ("Glomma_n.csv", "Glomma_n.csv");
                      ("Vest-Viken_p.csv", "Vest-Viken_p.csv")] → x ∈ fname_dict)
      as Hsub.
    { apply Forall_forall. compute_done. }
    specialize (Hapart d (Hsub d Hd)). rewrite Forall_forall in Hapart.
    exact (Hapart entry (Hsub entry Hentry)).
  - exact store_partial_run.
Defined.

(** ** The names of the files *)

(** X14.  The file names the merge writes are the file names the export
    reads: one per region and parameter, in the order of the regions with
    "p" before "n", all distinct, twice as many as there are regions; and no
    legacy file serves two of them. *)
Theorem merge_files_are_export_files :
  fname_dict.*1 = regions ≫= (λ region, csv_name region <$> pars)
  ∧ NoDup (fname_dict.*1)
  ∧ NoDup (fname_dict.*2)
  ∧ length fname_dict = (2 * length regions)%nat.
Proof.
  split_and!;
    [exact fname_dict_covers_regions | exact fname_dict_keys_distinct
    | compute_done | done].
Qed.

(** ** The export *)

Section export_more.
Variable same_title : string → string → bool.
Variable next_title : list string → string → string.
Variables (data_dir : string) (fs : gmap string DataFrame).

Lemma export_region_passed region writer writer' :
  export_region same_title next_title data_dir fs pars writer region = (writer', None) →
  ∃ dfp dfn,
    fs !! path_join data_dir (csv_name region "p") = Some dfp
    ∧ fs !! path_join data_dir (csv_name region "n") = Some dfn.
Proof.
  unfold export_region, pars, export_table, read_csv. cbn [for_each].
  destruct (fs !! path_join data_dir (csv_name region "p")) as [dfp|]; [|done].
  destruct (to_excel same_title next_title writer (sheet_name region "p") false dfp)
    as [w1 [e|]]; [done|].
  destruct (fs !! path_join data_dir (csv_name region "n")) as [dfn|]; [|done].
  intros _. by exists dfp, dfn.
Qed.

Lemma export_region_missing_p region writer :
  fs !! path_join data_dir (csv_name region "p") = None →
  export_region same_title next_title data_dir fs pars writer region
  = (writer, Some (FileNotFoundError (path_join data_dir (csv_name region "p")))).
Proof.
  intros Hp. unfold export_region, pars, export_table, read_csv. cbn [for_each].
  by rewrite Hp.
Qed.
End export_more.

(** X11.  The export stops at the first table that is not in the data
    folder, in the order of the loops, and the writer saves what it has.
    Let the regions before [region] be distinct, with titles the engine
    keeps and all their tables there.  When the table of [region] for "p" is
    absent: if no region stands before it, the writer has no sheet, cannot
    save, and the export ends with IndexError; otherwise the workbook is
    saved with the sheets of the regions before, and the export ends with
    FileNotFoundError on that path.  When the table for "p" is there and the
    one for "n" is absent, the workbook is saved with the sheets of the
    regions before and the sheet of [region] for "p", and the export ends
    with FileNotFoundError on the path for "n".  The regions after it play
    no part. *)
Theorem export_stops_at_missing_table same_title next_title data_dir
    (fs : gmap string DataFrame) before region rest :
  NoDup (before ++ [region]) →
  titles_kept same_title (region_titles (before ++ [region])) →
  (∀ r par, r ∈ before → par ∈ pars →
     is_Some (fs !! path_join data_dir (csv_name r par))) →
  ∃ sheets,
    title <$> sheets = region_titles before
    ∧ (fs !! path_join data_dir (csv_name region "p") = None →
       before = [] →
       export_tables same_title next_title data_dir fs (before ++ region :: rest) pars
       = (None, Some IndexError))
    ∧ (fs !! path_join data_dir (csv_name region "p") = None →
       before ≠ [] →
       export_tables same_title next_title data_dir fs (before ++ region :: rest) pars
       = (Some sheets,
          Some (FileNotFoundError (path_join data_dir (csv_name region "p")))))
    ∧ (∀ dfp,
         fs !! path_join data_dir (csv_name region "p") = Some dfp →
         fs !! path_join data_dir (csv_name region "n") = None →
         export_tables same_title next_title data_dir fs (before ++ region :: rest) pars
         = (Some (sheets ++ [sheet_of region "p" dfp]),
            Some (FileNotFoundError (path_join data_dir (csv_name region "n"))))).
Proof.
  intros Hnd Hkept Hfiles.
  assert (NoDup before ∧ region ∉ before) as [Hndb Hnew].
  { apply NoDup_app in Hnd as (Hndb & Hdisj & _). split; [done|].
    intros Hin. apply (Hdisj region Hin). left. }
  assert (titles_kept same_title (region_titles before)) as Hkeptb.
  { eapply titles_kept_sub; [|exact Hkept].
    intros t (r & par & Hr & Hpar & ->)%elem_of_region_titles.
    apply elem_of_region_titles. exists r, par. split_and!; [|done..].
    apply elem_of_app. by left. }
  destruct (export_regions_from_empty same_title next_title data_dir fs before
              Hndb Hkeptb Hfiles) as (sheets & Hrun & Htitles & _).
  exists sheets. split; [done|].
  unfold export_tables. rewrite for_each_app, Hrun. cbn [for_each].
  split_and!.
  - intros Hp ->. rewrite export_region_missing_p by done.
    destruct sheets; [done | discriminate Htitles].
  - intros Hp Hne. rewrite export_region_missing_p by done.
    unfold save. cbn [fst snd]. destruct sheets as [|ws sheets]; [|done].
    destruct before; [done | discriminate Htitles].
  - intros dfp Hp Hn. unfold export_region, pars. cbn [for_each].
    rewrite (export_table_fresh same_title next_title data_dir fs
               (region_titles (before ++ [region])) Hkept
               (λ t, region_titles_not_default t _) region "p" dfp sheets Hp).
    + unfold export_table at 1, read_csv. rewrite Hn.
      unfold save. cbn [fst snd]. by destruct sheets.
    + apply elem_of_region_titles. exists region, "p".
      split_and!; [apply elem_of_app; right; left | apply elem_of_pars; auto | done].
    + intros t Ht. rewrite Htitles in Ht.
      apply elem_of_region_titles in Ht as (r & par & Hr & Hpar & ->).
      apply elem_of_region_titles. exists r, par. split_and!; [|done..].
      apply elem_of_app. by left.
    + rewrite Htitles. intros (r & par & Hr & Hpar & Heq)%elem_of_region_titles.
      apply sheet_name_inj in Heq as [-> _]; [done | apply elem_of_pars; auto | done].
Qed.

Lemma export_stops_at_rogaland :
  ∃ wb,
    export_tables same_title_ascii (λ _ value, value) data_fold store_glomma_agder
      ["Glomma"; "Agder"; "Rogaland"; "Troms"] pars
    = (Some wb, Some (FileNotFoundError "../report_2022/data/Rogaland_p.csv"))
    ∧ title <$> wb = ["Glomma (P)"; "Glomma (N)"; "Agder (P)"; "Agder (N)"].
Proof.
  destruct (export_stops_at_missing_table same_title_ascii (λ _ value, value) data_fold
              store_glomma_agder ["Glomma"; "Agder"] "Rogaland" ["Troms"])
    as (wb & Htitles & _ & Hp & _).
  { compute_done. }
  { apply titles_kept_checked; compute_done. }
  { intros region par Hr Hpar.
    repeat (apply elem_of_cons in Hr as [->|Hr]);
      repeat (apply elem_of_cons in Hpar as [->|Hpar]);
      try (by apply elem_of_nil in Hr); try (by apply elem_of_nil in Hpar);
      eexists; vm_compute; reflexivity. }
  exists wb. split; [|exact Htitles].
  apply Hp; [by vm_compute | done].
Defined.

Lemma overlay_same {A} (l : list A) : overlay l l = l.
Proof. induction l as [|x l IH]; simpl; [done | by rewrite IH]. Qed.

Lemma overlay_grid_same {A} (g : list (list A)) : overlay_grid g g = g.
Proof.
  induction g as [|r g IH]; simpl; [done | by rewrite overlay_same, IH].
Qed.

Lemma write_cells_same writer name cells :
  NoDup (title <$> writer) →
  {| title := name; grid := cells |} ∈ writer →
  write_cells writer name cells = writer.
Proof.
  induction writer as [|ws writer IH]; [by intros _ ?%elem_of_nil|].
  rewrite fmap_cons. intros [Hnotin Hnd]%NoDup_cons Hin.
  cbn [write_cells]. destruct (decide (title ws = name)) as [Heq|Hne].
  - apply elem_of_cons in Hin as [<-|Hin].
    + cbn [grid]. by rewrite overlay_grid_same.
    + exfalso. apply Hnotin. rewrite Heq.
      apply list_elem_of_fmap. by eexists; split; [|exact Hin].
  - f_equal. apply IH; [done|].
    apply elem_of_cons in Hin as [<-|Hin]; [done | done].
Qed.

(** Writing a table again under its title leaves the workbook as it is. *)
Lemma to_excel_same same_title next_title writer name df :
  NoDup (title <$> writer) →
  {| title := name; grid := frame_cells false df |} ∈ writer →
  to_excel same_title next_title writer name false df = (writer, None).
Proof.
  intros Hnd Hin. unfold to_excel. rewrite decide_True.
  - by rewrite write_cells_same.
  - apply list_elem_of_fmap. by eexists; split; [|exact Hin].
Qed.

Section export_repeats.
Variable same_title : string → string → bool.
Variable next_title : list string → string → string.
Variables (data_dir : string) (fs : gmap string DataFrame).
Variable kept : list string.
Hypothesis Hkept : titles_kept same_title kept.
Hypothesis Hnames : ∀ t, t ∈ kept → t ≠ default_title.

Lemma export_region_seen seen writer region :
  writer_holds data_dir fs seen writer → region ∈ seen →
  export_region same_title next_title data_dir fs pars writer region = (writer, None).
Proof.
  intros (Hnd & _ & Hsheets) Hseen.
  destruct (Hsheets region "p") as (dfp & Hp & Hsp); [done | apply elem_of_pars; auto|].
  destruct (Hsheets region "n") as (dfn & Hn & Hsn); [done | apply elem_of_pars; auto|].
  unfold export_region, pars, export_table, read_csv. cbn [for_each].
  rewrite Hp. rewrite (to_excel_same _ _ writer _ dfp Hnd Hsp).
  rewrite Hn. by rewrite (to_excel_same _ _ writer _ dfn Hnd Hsn).
Qed.

Lemma export_region_new seen writer region dfp dfn :
  writer_holds data_dir fs seen writer → region ∉ seen →
  (∀ r par, r ∈ region :: seen → par ∈ pars → sheet_name r par ∈ kept) →
  fs !! path_join data_dir (csv_name region "p") = Some dfp →
  fs !! path_join data_dir (csv_name region "n") = Some dfn →
  export_region same_title next_title data_dir fs pars writer region
  = (writer ++ [sheet_of region "p" dfp; sheet_of region "n" dfn], None)
  ∧ writer_holds data_dir fs (region :: seen)
      (writer ++ [sheet_of region "p" dfp; sheet_of region "n" dfn]).
Proof.
  intros (Hnd & Htitles & Hsheets) Hnew Hin Hp Hn.
  assert (∀ par, par ∈ pars → sheet_name region par ∉ title <$> writer) as Hfresh.
  { intros par Hpar (r & par' & Hr & Hpar' & Heq)%Htitles.
    apply sheet_name_inj in Heq as [-> _]; done. }
  split.
  { apply (export_region_fresh same_title next_title data_dir fs kept Hkept Hnames);
      try done.
    - intros par Hpar. apply Hin; [left | done].
    - intros t (r & par & Hr & Hpar & ->)%Htitles. apply Hin; [by right | done]. }
  split_and!.
  - rewrite fmap_app. apply NoDup_app. split_and!; [done | |].
    + intros t Ht. simpl. rewrite !elem_of_cons, elem_of_nil.
      intros [->|[->|[]]]; (eapply Hfresh; [|exact Ht]); apply elem_of_pars; auto.
    + simpl. apply NoDup_cons. split; [|apply NoDup_singleton].
      rewrite list_elem_of_singleton.
      intros [_ ?]%sheet_name_inj; [done|apply elem_of_pars; auto..].
  - intros t. rewrite fmap_app, elem_of_app. intros [Ht|Ht].
    + destruct (Htitles t Ht) as (r & par & Hr & Hpar & ->).
      exists r, par. split_and!; [by right | done | done].
    + simpl in Ht. rewrite !elem_of_cons, elem_of_nil in Ht.
      destruct Ht as [->|[->|[]]].
      * exists region, "p". split_and!; [left | apply elem_of_pars; auto | done].
      * exists region, "n". split_and!; [left | apply elem_of_pars; auto | done].
  - intros r par [->|Hr]%elem_of_cons Hpar.
    + apply elem_of_pars in Hpar as [->| ->].
      * exists dfp. split; [done|]. apply elem_of_app. right. left.
      * exists dfn. split; [done|]. apply elem_of_app. right. right. left.
    + destruct (Hsheets r par Hr Hpar) as (df & Hdf & Hin').
      exists df. split; [done|]. apply elem_of_app. by left.
Qed.

Lemma export_from_seen seen l writer :
  writer_holds data_dir fs seen writer →
  (∀ r par, r ∈ seen ++ l → par ∈ pars → sheet_name r par ∈ kept) →
  for_each (export_region same_title next_title data_dir fs pars) l writer
  = for_each (export_region same_title next_title data_dir fs pars)
      (first_occurrences_from seen l) writer.
Proof.
  revert seen writer. induction l as [|region l IH]; intros seen writer Hw Hin; [done|].
  cbn [first_occurrences_from for_each]. destruct (decide (region ∈ seen)) as [Hs|Hnew].
  - rewrite (export_region_seen seen writer region Hw Hs). apply IH; [done|].
    intros r par Hr Hpar. apply Hin; [|done].
    rewrite elem_of_app in Hr. rewrite elem_of_app, elem_of_cons. tauto.
  - cbn [for_each].
    destruct (export_region same_title next_title data_dir fs pars writer region)
      as [writer' [e|]] eqn:Hr; [done|].
    destruct (export_region_passed _ _ _ _ _ _ _ Hr) as (dfp & dfn & Hp & Hn).
    destruct (export_region_new seen writer region dfp dfn Hw Hnew) as [Hrun Hw'];
      [|done|done|].
    { intros r par Hr' Hpar. apply Hin; [|done].
      rewrite elem_of_cons in Hr'. rewrite elem_of_app, elem_of_cons. tauto. }
    rewrite Hrun in Hr. injection Hr as <-. apply IH; [done|].
    intros r par Hr' Hpar. apply Hin; [|done].
    rewrite elem_of_app, elem_of_cons in Hr'. rewrite elem_of_app, elem_of_cons. tauto.
Qed.
End export_repeats.

Lemma first_occurrences_from_spec seen l :
  NoDup (first_occurrences_from seen l)
  ∧ ∀ x, x ∈ first_occurrences_from seen l ↔ x ∈ l ∧ x ∉ seen.
Proof.
  revert seen. induction l as [|y l IH]; intros seen.
  - cbn [first_occurrences_from]. split; [constructor|].
    intros x. rewrite elem_of_nil. tauto.
  - cbn [first_occurrences_from]. destruct (decide (y ∈ seen)) as [Hin|Hnew].
    + destruct (IH seen) as [Hnd Hel]. split; [done|].
      intros x. rewrite Hel, elem_of_cons. split; [tauto|].
      intros [[->|Hx] Hs]; [done | tauto].
    + destruct (IH (y :: seen)) as [Hnd Hel]. split.
      * apply NoDup_cons. split; [|done]. rewrite Hel, not_elem_of_cons. tauto.
      * intros x. rewrite !elem_of_cons, Hel, not_elem_of_cons.
        destruct (decide (x = y)) as [->|Hne]; tauto.
Qed.

(** X12.  When the engine keeps the sheet titles of the regions of a list
    (it accepts each, and no two are equal up to case), a region that stands
    several times in the list is written where it first stands and changes
    nothing afterwards: the export of the list is the export of the list
    without its repetitions (the same workbook saved, the same exception),
    and that list has every region of the given one exactly once. *)
Theorem export_ignores_repeated_regions same_title next_title data_dir
    (fs : gmap string DataFrame) l :
  titles_kept same_title (region_titles l) →
  export_tables same_title next_title data_dir fs l pars
  = export_tables same_title next_title data_dir fs (first_occurrences l) pars
  ∧ NoDup (first_occurrences l)
  ∧ ∀ region, region ∈ first_occurrences l ↔ region ∈ l.
Proof.
  intros Hkept. split_and!.
  - unfold export_tables, first_occurrences. f_equal.
    apply (export_from_seen same_title next_title data_dir fs (region_titles l) Hkept).
    + intros t. apply region_titles_not_default.
    + split_and!.
      * constructor.
      * intros t Ht. by apply elem_of_nil in Ht.
      * intros region par Hr. by apply elem_of_nil in Hr.
    + intros r par Hr Hpar. apply elem_of_region_titles. by exists r, par.
  - apply first_occurrences_from_spec.
  - intros region. unfold first_occurrences.
    destruct (first_occurrences_from_spec [] l) as [_ ->].
    rewrite elem_of_nil. tauto.
Qed.

Lemma export_glomma_twice :
  export_tables same_title_ascii (λ _ value, value) data_fold store_glomma_agder
    ["Glomma"; "Agder"; "Glomma"] pars
  = export_tables same_title_ascii (λ _ value, value) data_fold store_glomma_agder
      ["Glomma"; "Agder"] pars.
Proof.
  destruct (export_ignores_repeated_regions same_title_ascii (λ _ value, value)
              data_fold store_glomma_agder ["Glomma"; "Agder"; "Glomma"]) as [Hrun _].
  { apply titles_kept_checked; compute_done. }
  exact Hrun.
Defined.

(** ** A window that keeps no row *)

Lemma reindex_row_id cols (row : list cell) :
  NoDup cols → length row = length cols → reindex_row cols cols row = row.
Proof.
  intros Hnd Hlen. unfold reindex_row. apply list_eq. intros i.
  rewrite list_lookup_fmap. destruct (cols !! i) as [c|] eqn:Hc; simpl.
  - unfold at_label, iloc. rewrite (get_loc_NoDup _ _ _ Hnd Hc).
    destruct (lookup_lt_is_Some_2 row i) as [x Hx].
    { rewrite Hlen. by eapply lookup_lt_Some. }
    by rewrite Hx.
  - symmetry. apply lookup_ge_None. rewrite Hlen. by apply lookup_ge_None.
Qed.

Lemma reindex_id df : well_formed df → reindex (columns df) df = values df.
Proof.
  intros [Hnd Hlen]. unfold reindex.
  rewrite <- (list_fmap_id (values df)) at 2.
  apply list_fmap_ext. intros _ row Hrow%list_elem_of_lookup_2. simpl.
  rewrite Forall_forall in Hlen. by apply reindex_row_id, Hlen.
Qed.

(** X15.  When the legacy file has rows but none with its year in the
    window, and the header of the legacy file after the rename is the header
    of the current file, the merged table is the current table with its
    numbers rounded and converted (the current table being well formed, with
    rows and without missing cells), and this is the table the loop body
    writes. *)
Theorem merge_with_empty_window lo hi legacy current w :
  values legacy ≠ [] → values current ≠ [] →
  window lo hi legacy = Ok w → values w = [] →
  columns (rename legacy_names legacy) = columns current →
  well_formed current → complete current →
  merge_frames (rename legacy_names w) current = Ok (rounded_frame current)
  ∧ ∀ od nd ot (fs : gmap string DataFrame) new_fname old_fname,
      fs !! path_join od old_fname = Some legacy →
      fs !! path_join nd new_fname = Some current →
      merge_pair lo hi od nd ot fs (new_fname, old_fname)
      = Ok (<[path_join ot new_fname := rounded_frame current]> fs).
Proof.
  intros _ _ Hw Hempty Hcols Hwf Hc.
  assert (merge_frames (rename legacy_names w) current = Ok (rounded_frame current))
    as Hm.
  { unfold merge_frames.
    assert (concat (rename legacy_names w) current = current) as ->;
      [|by apply normalize_complete].
    pose proof (reindex_id _ Hwf) as Hid.
    pose proof (window_columns _ _ _ _ Hw) as Hwc.
    cbn [rename columns] in Hcols.
    destruct current as [cols rows]. cbn [columns values] in *.
    unfold concat. cbn [columns values rename].
    rewrite Hwc, Hcols, union_index_same by done. f_equal.
    unfold reindex at 1. cbn [values rename]. by rewrite Hempty. }
  split; [done|].
  intros od nd ot fs nf of_ Hold Hnew.
  by apply (merge_pair_result _ _ _ _ _ _ _ _ legacy w current).
Qed.

Lemma merge_with_empty_window_2018 :
  merge_frames
    (rename legacy_names {| columns := columns legacy_2018_2019; values := [] |})
    current_2018
  = Ok {| columns := ["År"; "Bakgrunn"; "Avløp"];
          values := [[Int 2018; Int 2; Int 1]] |}.
Proof.
  destruct (merge_with_empty_window 1990 2017 legacy_2018_2019 current_2018
              {| columns := columns legacy_2018_2019; values := [] |}) as [Hm _].
  - by vm_compute.
  - by vm_compute.
  - by vm_compute.
  - done.
  - by vm_compute.
  - unfold well_formed. split; compute_done.
  - unfold complete. compute_done.
  - exact Hm.
Defined.
